(** * hello: the greeting utility of rcForge (templates/example-interface.py)

    The script builds an [argparse] parser, parses [sys.argv[1:]], and then
    either prints one of two fixed lines or formats a greeting with
    [str.format], optionally upper-cases it with [str.upper], and prints it.

    The embedding follows the script and the three library entry points it
    calls, as CPython 3.11 implements them:
    - [Argparse]: [ArgumentParser.parse_args] for the five arguments the
      script declares (Lib/argparse.py);
    - [Format]: [str.format] called with the single keyword [name]
      (Objects/stringlib/unicode_format.h);
    - [Str.upper]: [str.upper] (Objects/unicodeobject.c, Unicode 14 data).

    Strings are sequences of code points, as [str] is in Python 3. *)

From Equations Require Import Equations.
From Stdlib Require Import NArith ZArith Bool Ascii String List Lia Permutation.
Import ListNotations.
Local Open Scope N_scope.

(** ** Python strings *)

Definition pystr := list N.

(** An ASCII literal as a Python string. *)
Definition str (s : string) : pystr := map N_of_ascii (list_ascii_of_string s).

(** A character literal: [chr "{"] is the code point of the brace. *)
Definition chr (c : ascii) : N := N_of_ascii c.
Arguments chr c%_char : simpl never.

Fixpoint str_eqb (s t : pystr) : bool :=
  match s, t with
  | [], [] => true
  | c :: s', d :: t' => (c =? d) && str_eqb s' t'
  | _, _ => false
  end.

(** ** Unicode data (Unicode 14.0.0, the database of CPython 3.11) *)

Module Unicode.

(** Code points of the digit zero of every decimal number system; the nine
    code points after each are its digits one to nine. *)
Definition decimal_zeros : list N :=
  [
   0x30; 0x660; 0x6F0; 0x7C0; 0x966; 0x9E6; 0xA66; 0xAE6; 0xB66; 0xBE6;
   0xC66; 0xCE6; 0xD66; 0xDE6; 0xE50; 0xED0; 0xF20; 0x1040; 0x1090; 0x17E0;
   0x1810; 0x1946; 0x19D0; 0x1A80; 0x1A90; 0x1B50; 0x1BB0; 0x1C40; 0x1C50; 0xA620;
   0xA8D0; 0xA900; 0xA9D0; 0xA9F0; 0xAA50; 0xABF0; 0xFF10; 0x104A0; 0x10D30; 0x11066;
   0x110F0; 0x11136; 0x111D0; 0x112F0; 0x11450; 0x114D0; 0x11650; 0x116C0; 0x11730; 0x118E0;
   0x11950; 0x11C50; 0x11D50; 0x11DA0; 0x16A60; 0x16AC0; 0x16B50; 0x1D7CE; 0x1D7D8; 0x1D7E2;
   0x1D7EC; 0x1D7F6; 0x1E140; 0x1E2F0; 0x1E950; 0x1FBF0
  ].

(** [Py_UNICODE_TODECIMAL]: the digit value of a decimal digit, -1 for
    every other character. *)
Definition Py_UNICODE_TODECIMAL (c : N) : Z :=
  match find (fun z => (z <=? c) && (c <? z + 10)) decimal_zeros with
  | Some z => Z.of_N (c - z)
  | None => (-1)%Z
  end.

Definition Py_UNICODE_ISDECIMAL (c : N) : bool :=
  (0 <=? Py_UNICODE_TODECIMAL c)%Z.

(** Simple upper-case mappings, as runs [(first, last, step, target)]:
    every [step]-th code point [c] from [first] to [last] maps to
    [target + (c - first)]. *)
Definition upper_runs : list (N * N * N * N) :=
  [
   (0x61, 0x7A, 1, 0x41); (0xB5, 0xB5, 1, 0x39C); (0xE0, 0xF6, 1, 0xC0);
   (0xF8, 0xFE, 1, 0xD8); (0xFF, 0xFF, 1, 0x178); (0x101, 0x12F, 2, 0x100);
   (0x131, 0x131, 1, 0x49); (0x133, 0x137, 2, 0x132); (0x13A, 0x148, 2, 0x139);
   (0x14B, 0x177, 2, 0x14A); (0x17A, 0x17E, 2, 0x179); (0x17F, 0x17F, 1, 0x53);
   (0x180, 0x180, 1, 0x243); (0x183, 0x185, 2, 0x182); (0x188, 0x188, 1, 0x187);
   (0x18C, 0x18C, 1, 0x18B); (0x192, 0x192, 1, 0x191); (0x195, 0x195, 1, 0x1F6);
   (0x199, 0x199, 1, 0x198); (0x19A, 0x19A, 1, 0x23D); (0x19E, 0x19E, 1, 0x220);
   (0x1A1, 0x1A5, 2, 0x1A0); (0x1A8, 0x1A8, 1, 0x1A7); (0x1AD, 0x1AD, 1, 0x1AC);
   (0x1B0, 0x1B0, 1, 0x1AF); (0x1B4, 0x1B6, 2, 0x1B3); (0x1B9, 0x1B9, 1, 0x1B8);
   (0x1BD, 0x1BD, 1, 0x1BC); (0x1BF, 0x1BF, 1, 0x1F7); (0x1C5, 0x1C5, 1, 0x1C4);
   (0x1C6, 0x1C6, 1, 0x1C4); (0x1C8, 0x1C8, 1, 0x1C7); (0x1C9, 0x1C9, 1, 0x1C7);
   (0x1CB, 0x1CB, 1, 0x1CA); (0x1CC, 0x1CC, 1, 0x1CA); (0x1CE, 0x1DC, 2, 0x1CD);
   (0x1DD, 0x1DD, 1, 0x18E); (0x1DF, 0x1EF, 2, 0x1DE); (0x1F2, 0x1F2, 1, 0x1F1);
   (0x1F3, 0x1F3, 1, 0x1F1); (0x1F5, 0x1F5, 1, 0x1F4); (0x1F9, 0x21F, 2, 0x1F8);
   (0x223, 0x233, 2, 0x222); (0x23C, 0x23C, 1, 0x23B); (0x23F, 0x240, 1, 0x2C7E);
   (0x242, 0x242, 1, 0x241); (0x247, 0x24F, 2, 0x246); (0x250, 0x250, 1, 0x2C6F);
   (0x251, 0x251, 1, 0x2C6D); (0x252, 0x252, 1, 0x2C70); (0x253, 0x253, 1, 0x181);
   (0x254, 0x254, 1, 0x186); (0x256, 0x257, 1, 0x189); (0x259, 0x259, 1, 0x18F);
   (0x25B, 0x25B, 1, 0x190); (0x25C, 0x25C, 1, 0xA7AB); (0x260, 0x260, 1, 0x193);
   (0x261, 0x261, 1, 0xA7AC); (0x263, 0x263, 1, 0x194); (0x265, 0x265, 1, 0xA78D);
   (0x266, 0x266, 1, 0xA7AA); (0x268, 0x268, 1, 0x197); (0x269, 0x269, 1, 0x196);
   (0x26A, 0x26A, 1, 0xA7AE); (0x26B, 0x26B, 1, 0x2C62); (0x26C, 0x26C, 1, 0xA7AD);
   (0x26F, 0x26F, 1, 0x19C); (0x271, 0x271, 1, 0x2C6E); (0x272, 0x272, 1, 0x19D);
   (0x275, 0x275, 1, 0x19F); (0x27D, 0x27D, 1, 0x2C64); (0x280, 0x280, 1, 0x1A6);
   (0x282, 0x282, 1, 0xA7C5); (0x283, 0x283, 1, 0x1A9); (0x287, 0x287, 1, 0xA7B1);
   (0x288, 0x288, 1, 0x1AE); (0x289, 0x289, 1, 0x244); (0x28A, 0x28B, 1, 0x1B1);
   (0x28C, 0x28C, 1, 0x245); (0x292, 0x292, 1, 0x1B7); (0x29D, 0x29D, 1, 0xA7B2);
   (0x29E, 0x29E, 1, 0xA7B0); (0x345, 0x345, 1, 0x399); (0x371, 0x373, 2, 0x370);
   (0x377, 0x377, 1, 0x376); (0x37B, 0x37D, 1, 0x3FD); (0x3AC, 0x3AC, 1, 0x386);
   (0x3AD, 0x3AF, 1, 0x388); (0x3B1, 0x3C1, 1, 0x391); (0x3C2, 0x3C2, 1, 0x3A3);
   (0x3C3, 0x3CB, 1, 0x3A3); (0x3CC, 0x3CC, 1, 0x38C); (0x3CD, 0x3CE, 1, 0x38E);
   (0x3D0, 0x3D0, 1, 0x392); (0x3D1, 0x3D1, 1, 0x398); (0x3D5, 0x3D5, 1, 0x3A6);
   (0x3D6, 0x3D6, 1, 0x3A0); (0x3D7, 0x3D7, 1, 0x3CF); (0x3D9, 0x3EF, 2, 0x3D8);
   (0x3F0, 0x3F0, 1, 0x39A); (0x3F1, 0x3F1, 1, 0x3A1); (0x3F2, 0x3F2, 1, 0x3F9);
   (0x3F3, 0x3F3, 1, 0x37F); (0x3F5, 0x3F5, 1, 0x395); (0x3F8, 0x3F8, 1, 0x3F7);
   (0x3FB, 0x3FB, 1, 0x3FA); (0x430, 0x44F, 1, 0x410); (0x450, 0x45F, 1, 0x400);
   (0x461, 0x481, 2, 0x460); (0x48B, 0x4BF, 2, 0x48A); (0x4C2, 0x4CE, 2, 0x4C1);
   (0x4CF, 0x4CF, 1, 0x4C0); (0x4D1, 0x52F, 2, 0x4D0); (0x561, 0x586, 1, 0x531);
   (0x10D0, 0x10FA, 1, 0x1C90); (0x10FD, 0x10FF, 1, 0x1CBD); (0x13F8, 0x13FD, 1, 0x13F0);
   (0x1C80, 0x1C80, 1, 0x412); (0x1C81, 0x1C81, 1, 0x414); (0x1C82, 0x1C82, 1, 0x41E);
   (0x1C83, 0x1C84, 1, 0x421); (0x1C85, 0x1C85, 1, 0x422); (0x1C86, 0x1C86, 1, 0x42A);
   (0x1C87, 0x1C87, 1, 0x462); (0x1C88, 0x1C88, 1, 0xA64A); (0x1D79, 0x1D79, 1, 0xA77D);
   (0x1D7D, 0x1D7D, 1, 0x2C63); (0x1D8E, 0x1D8E, 1, 0xA7C6); (0x1E01, 0x1E95, 2, 0x1E00);
   (0x1E9B, 0x1E9B, 1, 0x1E60); (0x1EA1, 0x1EFF, 2, 0x1EA0); (0x1F00, 0x1F07, 1, 0x1F08);
   (0x1F10, 0x1F15, 1, 0x1F18); (0x1F20, 0x1F27, 1, 0x1F28); (0x1F30, 0x1F37, 1, 0x1F38);
   (0x1F40, 0x1F45, 1, 0x1F48); (0x1F51, 0x1F57, 2, 0x1F59); (0x1F60, 0x1F67, 1, 0x1F68);
   (0x1F70, 0x1F71, 1, 0x1FBA); (0x1F72, 0x1F75, 1, 0x1FC8); (0x1F76, 0x1F77, 1, 0x1FDA);
   (0x1F78, 0x1F79, 1, 0x1FF8); (0x1F7A, 0x1F7B, 1, 0x1FEA); (0x1F7C, 0x1F7D, 1, 0x1FFA);
   (0x1FB0, 0x1FB1, 1, 0x1FB8); (0x1FBE, 0x1FBE, 1, 0x399); (0x1FD0, 0x1FD1, 1, 0x1FD8);
   (0x1FE0, 0x1FE1, 1, 0x1FE8); (0x1FE5, 0x1FE5, 1, 0x1FEC); (0x214E, 0x214E, 1, 0x2132);
   (0x2170, 0x217F, 1, 0x2160); (0x2184, 0x2184, 1, 0x2183); (0x24D0, 0x24E9, 1, 0x24B6);
   (0x2C30, 0x2C5F, 1, 0x2C00); (0x2C61, 0x2C61, 1, 0x2C60); (0x2C65, 0x2C65, 1, 0x23A);
   (0x2C66, 0x2C66, 1, 0x23E); (0x2C68, 0x2C6C, 2, 0x2C67); (0x2C73, 0x2C73, 1, 0x2C72);
   (0x2C76, 0x2C76, 1, 0x2C75); (0x2C81, 0x2CE3, 2, 0x2C80); (0x2CEC, 0x2CEE, 2, 0x2CEB);
   (0x2CF3, 0x2CF3, 1, 0x2CF2); (0x2D00, 0x2D25, 1, 0x10A0); (0x2D27, 0x2D27, 1, 0x10C7);
   (0x2D2D, 0x2D2D, 1, 0x10CD); (0xA641, 0xA66D, 2, 0xA640); (0xA681, 0xA69B, 2, 0xA680);
   (0xA723, 0xA72F, 2, 0xA722); (0xA733, 0xA76F, 2, 0xA732); (0xA77A, 0xA77C, 2, 0xA779);
   (0xA77F, 0xA787, 2, 0xA77E); (0xA78C, 0xA78C, 1, 0xA78B); (0xA791, 0xA793, 2, 0xA790);
   (0xA794, 0xA794, 1, 0xA7C4); (0xA797, 0xA7A9, 2, 0xA796); (0xA7B5, 0xA7C3, 2, 0xA7B4);
   (0xA7C8, 0xA7CA, 2, 0xA7C7); (0xA7D1, 0xA7D1, 1, 0xA7D0); (0xA7D7, 0xA7D9, 2, 0xA7D6);
   (0xA7F6, 0xA7F6, 1, 0xA7F5); (0xAB53, 0xAB53, 1, 0xA7B3); (0xAB70, 0xABBF, 1, 0x13A0);
   (0xFF41, 0xFF5A, 1, 0xFF21); (0x10428, 0x1044F, 1, 0x10400); (0x104D8, 0x104FB, 1, 0x104B0);
   (0x10597, 0x105A1, 1, 0x10570); (0x105A3, 0x105B1, 1, 0x1057C); (0x105B3, 0x105B9, 1, 0x1058C);
   (0x105BB, 0x105BC, 1, 0x10594); (0x10CC0, 0x10CF2, 1, 0x10C80); (0x118C0, 0x118DF, 1, 0x118A0);
   (0x16E60, 0x16E7F, 1, 0x16E40); (0x1E922, 0x1E943, 1, 0x1E900)
  ].

(** Characters whose upper-case mapping is longer than one character
    (SpecialCasing.txt). *)
Definition upper_special : list (N * list N) :=
  [
   (0xDF, [0x53; 0x53]); (0x149, [0x2BC; 0x4E]); (0x1F0, [0x4A; 0x30C]);
   (0x390, [0x399; 0x308; 0x301]); (0x3B0, [0x3A5; 0x308; 0x301]); (0x587, [0x535; 0x552]);
   (0x1E96, [0x48; 0x331]); (0x1E97, [0x54; 0x308]); (0x1E98, [0x57; 0x30A]);
   (0x1E99, [0x59; 0x30A]); (0x1E9A, [0x41; 0x2BE]); (0x1F50, [0x3A5; 0x313]);
   (0x1F52, [0x3A5; 0x313; 0x300]); (0x1F54, [0x3A5; 0x313; 0x301]); (0x1F56, [0x3A5; 0x313; 0x342]);
   (0x1F80, [0x1F08; 0x399]); (0x1F81, [0x1F09; 0x399]); (0x1F82, [0x1F0A; 0x399]);
   (0x1F83, [0x1F0B; 0x399]); (0x1F84, [0x1F0C; 0x399]); (0x1F85, [0x1F0D; 0x399]);
   (0x1F86, [0x1F0E; 0x399]); (0x1F87, [0x1F0F; 0x399]); (0x1F88, [0x1F08; 0x399]);
   (0x1F89, [0x1F09; 0x399]); (0x1F8A, [0x1F0A; 0x399]); (0x1F8B, [0x1F0B; 0x399]);
   (0x1F8C, [0x1F0C; 0x399]); (0x1F8D, [0x1F0D; 0x399]); (0x1F8E, [0x1F0E; 0x399]);
   (0x1F8F, [0x1F0F; 0x399]); (0x1F90, [0x1F28; 0x399]); (0x1F91, [0x1F29; 0x399]);
   (0x1F92, [0x1F2A; 0x399]); (0x1F93, [0x1F2B; 0x399]); (0x1F94, [0x1F2C; 0x399]);
   (0x1F95, [0x1F2D; 0x399]); (0x1F96, [0x1F2E; 0x399]); (0x1F97, [0x1F2F; 0x399]);
   (0x1F98, [0x1F28; 0x399]); (0x1F99, [0x1F29; 0x399]); (0x1F9A, [0x1F2A; 0x399]);
   (0x1F9B, [0x1F2B; 0x399]); (0x1F9C, [0x1F2C; 0x399]); (0x1F9D, [0x1F2D; 0x399]);
   (0x1F9E, [0x1F2E; 0x399]); (0x1F9F, [0x1F2F; 0x399]); (0x1FA0, [0x1F68; 0x399]);
   (0x1FA1, [0x1F69; 0x399]); (0x1FA2, [0x1F6A; 0x399]); (0x1FA3, [0x1F6B; 0x399]);
   (0x1FA4, [0x1F6C; 0x399]); (0x1FA5, [0x1F6D; 0x399]); (0x1FA6, [0x1F6E; 0x399]);
   (0x1FA7, [0x1F6F; 0x399]); (0x1FA8, [0x1F68; 0x399]); (0x1FA9, [0x1F69; 0x399]);
   (0x1FAA, [0x1F6A; 0x399]); (0x1FAB, [0x1F6B; 0x399]); (0x1FAC, [0x1F6C; 0x399]);
   (0x1FAD, [0x1F6D; 0x399]); (0x1FAE, [0x1F6E; 0x399]); (0x1FAF, [0x1F6F; 0x399]);
   (0x1FB2, [0x1FBA; 0x399]); (0x1FB3, [0x391; 0x399]); (0x1FB4, [0x386; 0x399]);
   (0x1FB6, [0x391; 0x342]); (0x1FB7, [0x391; 0x342; 0x399]); (0x1FBC, [0x391; 0x399]);
   (0x1FC2, [0x1FCA; 0x399]); (0x1FC3, [0x397; 0x399]); (0x1FC4, [0x389; 0x399]);
   (0x1FC6, [0x397; 0x342]); (0x1FC7, [0x397; 0x342; 0x399]); (0x1FCC, [0x397; 0x399]);
   (0x1FD2, [0x399; 0x308; 0x300]); (0x1FD3, [0x399; 0x308; 0x301]); (0x1FD6, [0x399; 0x342]);
   (0x1FD7, [0x399; 0x308; 0x342]); (0x1FE2, [0x3A5; 0x308; 0x300]); (0x1FE3, [0x3A5; 0x308; 0x301]);
   (0x1FE4, [0x3A1; 0x313]); (0x1FE6, [0x3A5; 0x342]); (0x1FE7, [0x3A5; 0x308; 0x342]);
   (0x1FF2, [0x1FFA; 0x399]); (0x1FF3, [0x3A9; 0x399]); (0x1FF4, [0x38F; 0x399]);
   (0x1FF6, [0x3A9; 0x342]); (0x1FF7, [0x3A9; 0x342; 0x399]); (0x1FFC, [0x3A9; 0x399]);
   (0xFB00, [0x46; 0x46]); (0xFB01, [0x46; 0x49]); (0xFB02, [0x46; 0x4C]);
   (0xFB03, [0x46; 0x46; 0x49]); (0xFB04, [0x46; 0x46; 0x4C]); (0xFB05, [0x53; 0x54]);
   (0xFB06, [0x53; 0x54]); (0xFB13, [0x544; 0x546]); (0xFB14, [0x544; 0x535]);
   (0xFB15, [0x544; 0x53B]); (0xFB16, [0x54E; 0x546]); (0xFB17, [0x544; 0x53D])
  ].

Definition in_run (c : N) (r : N * N * N * N) : bool :=
  let '(first, last, step, _) := r in
  (first <=? c) && (c <=? last) && ((c - first) mod step =? 0).

(** [_PyUnicode_ToUpperFull]: the full upper-case mapping of one character,
    one to three characters long. *)
Definition _PyUnicode_ToUpperFull (c : N) : list N :=
  match find (fun e => fst e =? c) upper_special with
  | Some (_, mapped) => mapped
  | None =>
      match find (in_run c) upper_runs with
      | Some (first, _, _, target) => [target + (c - first)]
      | None => [c]
      end
  end.

End Unicode.

(** ** The [str] methods the script and the libraries use *)

Module Str.

(** [c in s] for a one-character [c]. *)
Definition contains (c : N) (s : pystr) : bool := existsb (N.eqb c) s.

(** [s.startswith(prefix)]. *)
Fixpoint startswith (s prefix : pystr) : bool :=
  match prefix, s with
  | [], _ => true
  | p :: prefix', c :: s' => (c =? p) && startswith s' prefix'
  | _ :: _, [] => false
  end.

(** [s.split(sep, 1)] for a one-character [sep] that occurs in [s]: the
    text before the first [sep] and the text after it; [None] when [sep]
    does not occur. *)
Fixpoint split1 (sep : N) (s : pystr) : option (pystr * pystr) :=
  match s with
  | [] => None
  | c :: s' =>
      if c =? sep then Some ([], s')
      else match split1 sep s' with
           | Some (before, after) => Some (c :: before, after)
           | None => None
           end
  end.

(** [sep.join(l)]. *)
Fixpoint join (sep : pystr) (l : list pystr) : pystr :=
  match l with
  | [] => []
  | [s] => s
  | s :: l' => s ++ sep ++ join sep l'
  end.

(** [s.upper()]: [do_upper] maps every character through
    [_PyUnicode_ToUpperFull] and concatenates the results. *)
Definition upper (s : pystr) : pystr := flat_map Unicode._PyUnicode_ToUpperFull s.

End Str.

(** ** Exceptions, results and loops *)

(** What [argparse] says about one argument. *)
Inductive argument_message :=
| expected_one_argument
| expected_at_most_one_argument
| expected_0_arguments
| ignored_explicit_argument (explicit_arg : pystr).

(** The exceptions the script can meet. Messages are kept as the library
    words them, apart from interpolated values. *)
Inductive exn :=
| ArgumentError (argument_name : pystr) (message : argument_message)
| ValueError (msg : string)
| KeyError (key : pystr)
| IndexError (msg : string)
| TypeError (msg : string)
| AttributeError (msg : string)
| OtherError (msg : string).

Inductive res (E A : Type) :=
| Ok (a : A)
| Raise (e : E).
Arguments Ok {E A} a.
Arguments Raise {E A} e.

Definition result := res exn.

Definition bind {E A B} (r : res E A) (k : A -> res E B) : res E B :=
  match r with
  | Ok a => k a
  | Raise e => Raise e
  end.

Notation "x <- r ;; k" := (bind r (fun x => k))
  (at level 61, r at next level, right associativity).
Notation "' p <- r ;; k" := (bind r (fun x => let 'p := x in k))
  (at level 61, p pattern, r at next level, right associativity).

Definition inspect {A} (a : A) : {b : A | a = b} := exist _ a eq_refl.

(** A [while] loop over the unread part of a sequence: [next] either stops
    ([None]) or gives the new state and what is left to read, which is
    shorter than what it was given. *)
Section Iterate.
Context {E St A : Type}.
Variable next : St -> list A -> res E (option (St * list A)).
Hypothesis next_shrinks : forall st s st' s',
  next st s = Ok (Some (st', s')) -> (length s' < length s)%nat.

Equations iterate (st : St) (s : list A) : res E (St * list A)
  by wf (length s) lt :=
  iterate st s with inspect (next st s) := {
    | exist _ (Raise e) _ => Raise e
    | exist _ (Ok None) _ => Ok (st, s)
    | exist _ (Ok (Some (st', s'))) H => iterate st' s' }.

Lemma iterate_clause st s r (H : next st s = r) :
  iterate_unfold_clause_1 st s (exist _ r H) =
  match r with
  | Raise e => Raise e
  | Ok None => Ok (st, s)
  | Ok (Some (st', s')) => iterate st' s'
  end.
Proof. destruct r as [[[st' s']|]|e]; reflexivity. Qed.

Lemma iterate_step st s :
  iterate st s =
  match next st s with
  | Raise e => Raise e
  | Ok None => Ok (st, s)
  | Ok (Some (st', s')) => iterate st' s'
  end.
Proof. rewrite iterate_equation_1. unfold inspect. apply iterate_clause. Qed.
End Iterate.

(** ** [str.format] *)

Module Format.

(** The objects a replacement field can reach from the keyword argument:
    exact [str] objects and lists of them, which the model carries by
    value, and every other object (a bound method, a type, ...), which it
    carries by reference. *)
Inductive pyobj :=
| PyStr (s : pystr)
| PyList (l : list pystr)
| PyRef (id : N).

Inductive subscript :=
| IntKey (i : Z)
| StrKey (k : pystr).

(** The object protocol of the interpreter, for the requests whose answer
    depends on more than the characters of a [str]: attribute lookup,
    [repr] and [ascii], the format mini-language, and every operation on an
    object that is not a [str]. *)
Record Runtime := {
  rt_getattr : pyobj -> pystr -> result pyobj;
  rt_getitem : pyobj -> subscript -> result pyobj;
  rt_str : pyobj -> result pystr;
  rt_repr : pyobj -> result pystr;
  rt_ascii : pyobj -> result pystr;
  rt_format : pyobj -> pystr -> result pystr
}.

Definition PY_SSIZE_T_MAX : Z := 2 ^ 63 - 1.

(** [get_integer]: the decimal number a substring spells, -1 when it is
    empty or holds a character that is not a decimal digit. *)
Fixpoint get_integer_from (s : pystr) (accumulator : Z) : result Z :=
  match s with
  | [] => Ok accumulator
  | c :: s' =>
      let digitval := Unicode.Py_UNICODE_TODECIMAL c in
      if (digitval <? 0)%Z then Ok (-1)%Z
      else if (accumulator >? Z.quot (PY_SSIZE_T_MAX - digitval) 10)%Z
      then Raise (ValueError "Too many decimal digits in format string")
      else get_integer_from s' (accumulator * 10 + digitval)%Z
  end.

Definition get_integer (s : pystr) : result Z :=
  match s with
  | [] => Ok (-1)%Z
  | _ => get_integer_from s 0%Z
  end.

(** *** Automatic field numbering *)

Inductive AutoNumberState := ANS_INIT | ANS_AUTO | ANS_MANUAL.

Record AutoNumber := {
  an_state : AutoNumberState;
  an_field_number : Z
}.

Definition AutoNumber_Init : AutoNumber :=
  {| an_state := ANS_INIT; an_field_number := 0 |}.

Definition autonumber_state_error (state : AutoNumberState)
    (field_name_is_empty : bool) : result unit :=
  match state with
  | ANS_MANUAL =>
      if field_name_is_empty
      then Raise (ValueError
        "cannot switch from manual field specification to automatic field numbering")
      else Ok tt
  | _ =>
      if negb field_name_is_empty
      then Raise (ValueError
        "cannot switch from automatic field numbering to manual field specification")
      else Ok tt
  end.

(** *** Field names: [first(.attr|[item])*] *)

(** The text up to the first ['.'] or ['['], and the text from there on. *)
Fixpoint until_accessor (s : pystr) : pystr * pystr :=
  match s with
  | [] => ([], [])
  | c :: s' =>
      if (c =? chr "[") || (c =? chr ".") then ([], s)
      else let '(first, rest) := until_accessor s' in (c :: first, rest)
  end.

(** [field_name_split]: the first component of a field name, its value as
    an index into the positional arguments (-1 when it is a keyword), the
    accessors that follow, and the numbering state. *)
Definition field_name_split (field_name : pystr) (auto_number : AutoNumber)
    : result (pystr * Z * pystr * AutoNumber) :=
  let '(first, rest) := until_accessor field_name in
  first_idx <- get_integer first ;;
  let field_name_is_empty := match first with [] => true | _ => false end in
  let using_numeric_index := field_name_is_empty || negb (first_idx =? -1)%Z in
  let state :=
    match an_state auto_number with
    | ANS_INIT =>
        if using_numeric_index
        then (if field_name_is_empty then ANS_AUTO else ANS_MANUAL)
        else ANS_INIT
    | st => st
    end in
  _ <- (if using_numeric_index
        then autonumber_state_error state field_name_is_empty
        else Ok tt) ;;
  if field_name_is_empty
  then Ok (first, an_field_number auto_number, rest,
           {| an_state := state;
              an_field_number := (an_field_number auto_number + 1)%Z |})
  else Ok (first, first_idx, rest,
           {| an_state := state;
              an_field_number := an_field_number auto_number |}).

(** One accessor: whether it is an attribute, its index (-1 when the item
    is not a number), and its text. *)
Record accessor := {
  is_attribute : bool;
  name_idx : Z;
  acc_name : pystr
}.

(** [FieldNameIterator_next]: [None] at the end of the field name. *)
Definition FieldNameIterator_next (s : pystr)
    : result (option (accessor * pystr)) :=
  match s with
  | [] => Ok None
  | c :: s' =>
      if c =? chr "." then
        let '(name, rest) := until_accessor s' in
        match name with
        | [] => Raise (ValueError "Empty attribute in format string")
        | _ => Ok (Some ({| is_attribute := true; name_idx := (-1)%Z;
                            acc_name := name |}, rest))
        end
      else if c =? chr "[" then
        match Str.split1 (chr "]") s' with
        | None => Raise (ValueError "Missing ']' in format string")
        | Some (name, rest) =>
            idx <- get_integer name ;;
            match name with
            | [] => Raise (ValueError "Empty attribute in format string")
            | _ => Ok (Some ({| is_attribute := false; name_idx := idx;
                                acc_name := name |}, rest))
            end
        end
      else Raise (ValueError
        "Only '.' or '[' may follow ']' in format field specifier")
  end.

(** *** Replacement fields: [{field_name!conversion:format_spec}] *)

Record field := {
  field_name : pystr;
  format_spec : pystr;
  conversion : N;                     (* 0: no conversion *)
  format_spec_needs_expanding : bool
}.

(** The scan of [parse_field] for the end of the field name: the name, the
    character that ended it (one of [}], [:], [!]; [None] at the end of the
    string) and the text after it. Inside [[...]] nothing ends the name. *)
Fixpoint field_name_end (s : pystr) (in_brackets : bool)
    : result (pystr * option N * pystr) :=
  match s with
  | [] => Ok ([], None, [])
  | c :: s' =>
      if in_brackets then
        '(name, stop, rest) <- field_name_end s' (negb (c =? chr "]")) ;;
        Ok (c :: name, stop, rest)
      else if c =? chr "{" then
        Raise (ValueError "unexpected '{' in field name")
      else if c =? chr "[" then
        '(name, stop, rest) <- field_name_end s' true ;;
        Ok (c :: name, stop, rest)
      else if (c =? chr "}") || (c =? chr ":") || (c =? chr "!") then
        Ok ([], Some c, s')
      else
        '(name, stop, rest) <- field_name_end s' false ;;
        Ok (c :: name, stop, rest)
  end.

(** The scan for the [}] that closes a format specifier, [depth] braces
    deep in nested fields: the specifier, whether it holds a [{], and the
    text after the closing brace; [None] when no brace closes it. *)
Fixpoint format_spec_end (s : pystr) (depth : nat)
    : option (pystr * bool * pystr) :=
  match s with
  | [] => None
  | c :: s' =>
      if c =? chr "{" then
        match format_spec_end s' (S depth) with
        | Some (spec, _, rest) => Some (c :: spec, true, rest)
        | None => None
        end
      else if c =? chr "}" then
        match depth with
        | O => Some ([], false, s')
        | S depth' =>
            match format_spec_end s' depth' with
            | Some (spec, expand, rest) => Some (c :: spec, expand, rest)
            | None => None
            end
        end
      else
        match format_spec_end s' depth with
        | Some (spec, expand, rest) => Some (c :: spec, expand, rest)
        | None => None
        end
  end.

Definition parse_format_spec (name : pystr) (conv : N) (s : pystr)
    : result (field * pystr) :=
  match format_spec_end s O with
  | Some (spec, expand, rest) =>
      Ok ({| field_name := name; format_spec := spec; conversion := conv;
             format_spec_needs_expanding := expand |}, rest)
  | None => Raise (ValueError "unmatched '{' in format spec")
  end.

(** [parse_field]: the field that starts after an opening brace, and the
    text after its closing brace. *)
Definition parse_field (s : pystr) : result (field * pystr) :=
  '(name, stop, rest) <- field_name_end s false ;;
  let plain := {| field_name := name; format_spec := []; conversion := 0;
                  format_spec_needs_expanding := false |} in
  match stop with
  | None => Raise (ValueError "expected '}' before end of string")
  | Some c =>
      if c =? chr "!" then
        match rest with
        | [] => Raise (ValueError
                  "end of string while looking for conversion specifier")
        | conv :: rest' =>
            match rest' with
            | [] => parse_format_spec name conv []
            | c' :: rest'' =>
                if c' =? chr "}" then
                  Ok ({| field_name := name; format_spec := [];
                         conversion := conv;
                         format_spec_needs_expanding := false |}, rest'')
                else if negb (c' =? chr ":") then
                  Raise (ValueError "expected ':' after conversion specifier")
                else parse_format_spec name conv rest''
            end
        end
      else if c =? chr ":" then parse_format_spec name 0 rest
      else Ok (plain, rest)
  end.

(** *** Literal text and markup *)

(** The text up to the first brace, and that brace with the text after it. *)
Fixpoint literal_end (s : pystr) : pystr * option (N * pystr) :=
  match s with
  | [] => ([], None)
  | c :: s' =>
      if (c =? chr "{") || (c =? chr "}") then ([], Some (c, s'))
      else let '(text, brace) := literal_end s' in (c :: text, brace)
  end.

Record markup := {
  literal : pystr;
  field_present : option field;
  unread : pystr
}.

(** [MarkupIterator_next]: the next run of literal text and the field that
    follows it, if any; [None] at the end of the string. A doubled brace
    ends the literal, which then holds one brace. *)
Definition MarkupIterator_next (s : pystr) : result (option markup) :=
  match s with
  | [] => Ok None
  | _ =>
      let '(text, brace) := literal_end s in
      match brace with
      | None =>
          Ok (Some {| literal := text; field_present := None; unread := [] |})
      | Some (c, after) =>
          match after with
          | [] =>
              if c =? chr "}"
              then Raise (ValueError "Single '}' encountered in format string")
              else Raise (ValueError "Single '{' encountered in format string")
          | c' :: after' =>
              if c =? c' then
                Ok (Some {| literal := text ++ [c]; field_present := None;
                            unread := after' |})
              else if c =? chr "}" then
                Raise (ValueError "Single '}' encountered in format string")
              else
                '(f, rest) <- parse_field after ;;
                Ok (Some {| literal := text; field_present := Some f;
                            unread := rest |})
          end
      end
  end.

(** Every scan leaves less to read than it was given. *)

Lemma until_accessor_length s first rest :
  until_accessor s = (first, rest) -> (length rest <= length s)%nat.
Proof.
  revert first rest. induction s as [|c s IH]; simpl; intros first rest H.
  - injection H as <- <-. simpl. lia.
  - destruct ((c =? chr "[") || (c =? chr ".")).
    + injection H as <- <-. simpl. lia.
    + destruct (until_accessor s) as [f r]. injection H as <- <-.
      specialize (IH _ _ eq_refl). lia.
Qed.

Lemma split1_length sep s before after :
  Str.split1 sep s = Some (before, after) -> (length after < length s)%nat.
Proof.
  revert before. induction s as [|c s IH]; simpl; intros before H; [discriminate|].
  destruct (c =? sep).
  - injection H as <- <-. lia.
  - destruct (Str.split1 sep s) as [[b a]|]; [|discriminate].
    injection H as <- <-. specialize (IH _ eq_refl). lia.
Qed.

Lemma FieldNameIterator_next_length s a rest :
  FieldNameIterator_next s = Ok (Some (a, rest)) ->
  (length rest < length s)%nat.
Proof.
  destruct s as [|c s]; simpl; [discriminate|].
  destruct (c =? chr ".").
  - destruct (until_accessor s) as [name r] eqn:E.
    apply until_accessor_length in E.
    destruct name; [discriminate|]. intros [= <- <-]. lia.
  - destruct (c =? chr "["); [|discriminate].
    destruct (Str.split1 (chr "]") s) as [[name r]|] eqn:E; [|discriminate].
    apply split1_length in E.
    destruct (get_integer name); simpl; [|discriminate].
    destruct name; [discriminate|]. intros [= <- <-]. lia.
Qed.

Lemma field_name_end_length s b name stop rest :
  field_name_end s b = Ok (name, stop, rest) -> (length rest <= length s)%nat.
Proof.
  revert b name stop rest.
  induction s as [|c s IH]; simpl; intros b name stop rest H.
  - injection H as <- <- <-. simpl. lia.
  - assert (Hrec : forall b', bind (field_name_end s b')
              (fun x => let '(name, stop, rest) := x in Ok (c :: name, stop, rest))
              = Ok (name, stop, rest) -> (length rest <= S (length s))%nat).
    { intros b' H'. destruct (field_name_end s b') as [[[n st] r]|] eqn:E;
        simpl in H'; [|discriminate].
      injection H' as <- <- <-. specialize (IH _ _ _ _ E). lia. }
    destruct b; [eauto|].
    destruct (c =? chr "{"); [discriminate|].
    destruct (c =? chr "["); [eauto|].
    destruct ((c =? chr "}") || (c =? chr ":") || (c =? chr "!")); [|eauto].
    injection H as <- <- <-. lia.
Qed.

Lemma format_spec_end_length s depth spec expand rest :
  format_spec_end s depth = Some (spec, expand, rest) ->
  (length rest < length s)%nat.
Proof.
  revert depth spec expand rest.
  induction s as [|c s IH]; simpl; intros depth spec expand rest H; [discriminate|].
  destruct (c =? chr "{").
  - destruct (format_spec_end s (S depth)) as [[[sp e] r]|] eqn:E; [|discriminate].
    injection H as <- <- <-. specialize (IH _ _ _ _ E). lia.
  - destruct (c =? chr "}").
    + destruct depth as [|depth'].
      * injection H as <- <- <-. lia.
      * destruct (format_spec_end s depth') as [[[sp e] r]|] eqn:E; [|discriminate].
        injection H as <- <- <-. specialize (IH _ _ _ _ E). lia.
    + destruct (format_spec_end s depth) as [[[sp e] r]|] eqn:E; [|discriminate].
      injection H as <- <- <-. specialize (IH _ _ _ _ E). lia.
Qed.

Lemma parse_format_spec_length name conv s f rest :
  parse_format_spec name conv s = Ok (f, rest) -> (length rest <= length s)%nat.
Proof.
  unfold parse_format_spec.
  destruct (format_spec_end s 0) as [[[sp e] r]|] eqn:E; [|discriminate].
  apply format_spec_end_length in E. intros [= <- <-]. lia.
Qed.

Lemma parse_field_length s f rest :
  parse_field s = Ok (f, rest) -> (length rest <= length s)%nat.
Proof.
  unfold parse_field.
  destruct (field_name_end s false) as [[[name stop] r]|] eqn:E; simpl; [|discriminate].
  apply field_name_end_length in E.
  destruct stop as [c|]; [|discriminate].
  destruct (c =? chr "!").
  - destruct r as [|conv [|c' r'']]; [discriminate| |].
    + intros H. apply parse_format_spec_length in H. simpl in *. lia.
    + destruct (c' =? chr "}").
      * intros [= <- <-]. simpl in *. lia.
      * destruct (c' =? chr ":"); simpl; [|discriminate].
        intros H. apply parse_format_spec_length in H. simpl in *. lia.
  - destruct (c =? chr ":").
    + intros H. apply parse_format_spec_length in H. lia.
    + intros [= <- <-]. lia.
Qed.

Lemma literal_end_length s text c after :
  literal_end s = (text, Some (c, after)) -> (length after < length s)%nat.
Proof.
  revert text. induction s as [|c0 s IH]; simpl; intros text H; [discriminate|].
  destruct ((c0 =? chr "{") || (c0 =? chr "}")).
  - injection H as <- <- <-. lia.
  - destruct (literal_end s) as [t b]. injection H as <- ->.
    specialize (IH _ eq_refl). lia.
Qed.

Lemma MarkupIterator_next_length s m :
  MarkupIterator_next s = Ok (Some m) -> (length (unread m) < length s)%nat.
Proof.
  unfold MarkupIterator_next. destruct s as [|c0 s0]; [discriminate|].
  destruct (literal_end (c0 :: s0)) as [text [[c after]|]] eqn:E.
  - apply literal_end_length in E.
    destruct after as [|c' after'].
    + destruct (c =? chr "}"); discriminate.
    + destruct (c =? c').
      * intros [= <-]. simpl in *. lia.
      * destruct (c =? chr "}"); [discriminate|].
        destruct (parse_field (c' :: after')) as [[f rest]|] eqn:P; simpl; [|discriminate].
        apply parse_field_length in P. intros [= <-]. simpl in *. lia.
  - intros [= <-]. simpl. lia.
Qed.

(** *** Looking up and rendering a field *)

Section WithRuntime.
Variable rt : Runtime.
(** The keyword arguments of the call are [{"name": name}]; there are no
    positional arguments. *)
Variable name : pyobj.

Definition getattr (obj : pyobj) (attr : pystr) : result pyobj :=
  rt_getattr rt obj attr.

Definition getitem_sequence (obj : pyobj) (idx : Z) : result pyobj :=
  match obj with
  | PyStr s =>
      match nth_error s (Z.to_nat idx) with
      | Some c => Ok (PyStr [c])
      | None => Raise (IndexError "string index out of range")
      end
  | _ => rt_getitem rt obj (IntKey idx)
  end.

Definition getitem_str (obj : pyobj) (key : pystr) : result pyobj :=
  match obj with
  | PyStr _ => Raise (TypeError "string indices must be integers, not 'str'")
  | _ => rt_getitem rt obj (StrKey key)
  end.

(** One turn of the loop of [get_field_object] over the accessors. *)
Definition lookup_next (obj : pyobj) (s : pystr)
    : result (option (pyobj * pystr)) :=
  r <- FieldNameIterator_next s ;;
  match r with
  | None => Ok None
  | Some (a, rest) =>
      tmp <- (if is_attribute a then getattr obj (acc_name a)
              else if (name_idx a =? -1)%Z then getitem_str obj (acc_name a)
              else getitem_sequence obj (name_idx a)) ;;
      Ok (Some (tmp, rest))
  end.

Lemma lookup_next_shrinks obj s obj' s' :
  lookup_next obj s = Ok (Some (obj', s')) -> (length s' < length s)%nat.
Proof.
  unfold lookup_next.
  destruct (FieldNameIterator_next s) as [[[a rest]|]|] eqn:E; simpl;
    try discriminate.
  apply FieldNameIterator_next_length in E.
  destruct (if is_attribute a then _ else _); simpl; [|discriminate].
  intros [= _ <-]. exact E.
Qed.

(** [get_field_object]: the object a field name denotes. *)
Definition get_field_object (input : pystr) (auto_number : AutoNumber)
    : result (pyobj * AutoNumber) :=
  '(first, index, rest, auto_number') <- field_name_split input auto_number ;;
  obj <- (if (index =? -1)%Z then
            if str_eqb first (str "name") then Ok name
            else Raise (KeyError first)
          else Raise (IndexError
            "Replacement index out of range for positional args tuple")) ;;
  '(obj', _) <- iterate lookup_next lookup_next_shrinks obj rest ;;
  Ok (obj', auto_number').

Definition PyObject_Str (obj : pyobj) : result pystr :=
  match obj with
  | PyStr s => Ok s
  | _ => rt_str rt obj
  end.

Definition do_conversion (obj : pyobj) (conv : N) : result pyobj :=
  if conv =? chr "r" then s <- rt_repr rt obj ;; Ok (PyStr s)
  else if conv =? chr "s" then s <- PyObject_Str obj ;; Ok (PyStr s)
  else if conv =? chr "a" then s <- rt_ascii rt obj ;; Ok (PyStr s)
  else Raise (ValueError "Unknown conversion specifier").

(** [render_field]: an exact [str] with an empty format specifier is
    written as it is. *)
Definition render_field (fieldobj : pyobj) (spec : pystr) : result pystr :=
  match fieldobj, spec with
  | PyStr s, [] => Ok s
  | _, _ => rt_format rt fieldobj spec
  end.

Section Markup.
(** [build_string] one recursion level down, for format specifiers
    that hold fields of their own. *)
Variable expand : pystr -> AutoNumber -> result (pystr * AutoNumber).

Definition output_markup (f : field) (writer : pystr)
    (auto_number : AutoNumber) : result (pystr * AutoNumber) :=
  '(fieldobj, auto1) <- get_field_object (field_name f) auto_number ;;
  fieldobj' <- (if conversion f =? 0 then Ok fieldobj
                else do_conversion fieldobj (conversion f)) ;;
  '(spec, auto2) <- (if format_spec_needs_expanding f
                     then expand (format_spec f) auto1
                     else Ok (format_spec f, auto1)) ;;
  text <- render_field fieldobj' spec ;;
  Ok (writer ++ text, auto2).

(** One turn of the loop of [do_markup]. *)
Definition markup_next (st : pystr * AutoNumber) (s : pystr)
    : result (option (pystr * AutoNumber * pystr)) :=
  r <- MarkupIterator_next s ;;
  match r with
  | None => Ok None
  | Some m =>
      let writer := fst st ++ literal m in
      match field_present m with
      | None => Ok (Some (writer, snd st, unread m))
      | Some f =>
          st' <- output_markup f writer (snd st) ;;
          Ok (Some (st', unread m))
      end
  end.

Lemma markup_next_shrinks st s st' s' :
  markup_next st s = Ok (Some (st', s')) -> (length s' < length s)%nat.
Proof.
  unfold markup_next.
  destruct (MarkupIterator_next s) as [[m|]|] eqn:E; simpl; try discriminate.
  apply MarkupIterator_next_length in E.
  destruct (field_present m).
  - destruct (output_markup _ _ _); simpl; [|discriminate].
    intros [= _ <-]. exact E.
  - intros [= _ <-]. exact E.
Qed.

Definition do_markup (input : pystr) (auto_number : AutoNumber)
    : result (pystr * AutoNumber) :=
  '(st, _) <- iterate markup_next markup_next_shrinks ([], auto_number) input ;;
  Ok st.
End Markup.

Fixpoint build_string (recursion_depth : nat) (input : pystr)
    (auto_number : AutoNumber) : result (pystr * AutoNumber) :=
  match recursion_depth with
  | O => Raise (ValueError "Max string recursion exceeded")
  | S depth => do_markup (build_string depth) input auto_number
  end.

(** [do_string_format]: [self.format(name=name)]. *)
Definition do_string_format (self : pystr) : result pystr :=
  '(s, _) <- build_string 2 self AutoNumber_Init ;;
  Ok s.
End WithRuntime.

End Format.


(** A runtime that answers no request, for the runs that make none. *)
Definition no_answers : Format.Runtime :=
  {| Format.rt_getattr := fun _ _ => Raise (OtherError "no answer");
     Format.rt_getitem := fun _ _ => Raise (OtherError "no answer");
     Format.rt_str := fun _ => Raise (OtherError "no answer");
     Format.rt_repr := fun _ => Raise (OtherError "no answer");
     Format.rt_ascii := fun _ => Raise (OtherError "no answer");
     Format.rt_format := fun _ _ => Raise (OtherError "no answer") |}.

(** ** Standard output, standard error and the exit status *)

(** The message of [parser.error]. *)
Inductive error_message :=
| argument_error (argument_name : pystr) (message : argument_message)
| ambiguous_option (option : pystr) (matches : list pystr)
| unrecognized_arguments (argv : list pystr).

(** What is written to a stream. The texts that [argparse] lays out from
    the program name and the width of the terminal are kept as such. *)
Inductive output :=
| Text (s : pystr)
| Help
| Usage
| Error (message : error_message)
| Traceback (e : exn).

Record World := {
  stdout : list output;
  stderr : list output
}.

(** What unwinds the stack: an exception, or [SystemExit] with its exit
    status (which no [except Exception] catches). *)
Inductive signal :=
| Exception (e : exn)
| SystemExit (code : Z).

(** Code that writes and may raise: a signal leaves with the streams as
    they were when it was raised. *)
Definition M (A : Type) := World -> res (signal * World) (A * World).

Definition ret {A} (a : A) : M A := fun w => Ok (a, w).

Definition raise {A} (e : signal) : M A := fun w => Raise (e, w).

Definition bindM {A B} (m : M A) (k : A -> M B) : M B :=
  fun w =>
    match m w with
    | Ok (a, w') => k a w'
    | Raise e => Raise e
    end.

Definition lift {A} (r : result A) : M A :=
  match r with
  | Ok a => ret a
  | Raise e => raise (Exception e)
  end.

Notation "x <~ m ;; k" := (bindM m (fun x => k))
  (at level 61, m at next level, right associativity).
Notation "' p <~ m ;; k" := (bindM m (fun x => let 'p := x in k))
  (at level 61, p pattern, m at next level, right associativity).
Notation "m ;;; k" := (bindM m (fun _ => k))
  (at level 61, right associativity).

Definition write_stdout (o : output) : M unit :=
  fun w => Ok (tt, {| stdout := stdout w ++ [o]; stderr := stderr w |}).

Definition write_stderr (o : output) : M unit :=
  fun w => Ok (tt, {| stdout := stdout w; stderr := stderr w ++ [o] |}).

(** [print(s)]: the string and a newline. *)
Definition print (s : pystr) : M unit := write_stdout (Text (s ++ [0x0A])).

(** [sys.exit(status)]. *)
Definition sys_exit {A} (status : Z) : M A := raise (SystemExit status).

(** ** [argparse]: the parser of the script *)

Module Argparse.

(** What [_get_values] hands to an action: one string, or a list of them. *)
Inductive value :=
| VStr (s : pystr)
| VList (l : list pystr).

(** [args], the namespace [parse_args] returns. *)
Record Namespace := {
  name : value;
  format : value;
  uppercase : bool;
  summary : bool;
  version : bool
}.

(** The actions of the parser, in the order of [parser._actions]: the help
    action every parser has, then the five the script adds. *)
Inductive Action :=
| help_action
| name_action
| format_action
| uppercase_action
| summary_action
| version_action.

Inductive Nargs :=
| nargs_None        (* one argument *)
| OPTIONAL          (* '?' *)
| nargs_0.          (* the flags: store_true and help *)

Definition option_strings (a : Action) : list pystr :=
  match a with
  | help_action => [str "-h"; str "--help"]
  | name_action => []
  | format_action => [str "--format"]
  | uppercase_action => [str "--uppercase"; str "-u"]
  | summary_action => [str "--summary"]
  | version_action => [str "--version"]
  end.

Definition nargs (a : Action) : Nargs :=
  match a with
  | name_action => OPTIONAL
  | format_action => nargs_None
  | _ => nargs_0
  end.

Definition dest (a : Action) : pystr :=
  match a with
  | help_action => str "help"
  | name_action => str "name"
  | format_action => str "format"
  | uppercase_action => str "uppercase"
  | summary_action => str "summary"
  | version_action => str "version"
  end.

(** [parser._option_string_actions], in insertion order. *)
Definition _option_string_actions : list (pystr * Action) :=
  [ (str "-h", help_action); (str "--help", help_action);
    (str "--format", format_action);
    (str "--uppercase", uppercase_action); (str "-u", uppercase_action);
    (str "--summary", summary_action);
    (str "--version", version_action) ].

Definition get_option (option_string : pystr) : option Action :=
  match find (fun e => str_eqb (fst e) option_string) _option_string_actions with
  | Some (_, a) => Some a
  | None => None
  end.

(** [parser._get_positional_actions()]. *)
Definition _get_positional_actions : list Action := [name_action].

(** The namespace before parsing: every default. *)
Definition defaults : Namespace :=
  {| name := VStr (str "Friend");
     format := VStr (str "Hello, {name}!");
     uppercase := false;
     summary := false;
     version := false |}.

(** [_get_action_name]. *)
Definition _get_action_name (a : Action) : pystr :=
  match option_strings a with
  | [] => dest a
  | l => Str.join (str "/") l
  end.

(** [parser.exit] and [parser.error]. *)
Definition exit {A} (status : Z) : M A := sys_exit status.

Definition error {A} (message : error_message) : M A :=
  write_stderr Usage ;;;
  write_stderr (Error message) ;;;
  exit 2.

Definition print_help : M unit := write_stdout Help.

(** *** Telling options from arguments *)

(** The outcome of [_parse_optional]: [None] for a positional argument,
    else the action (if the option is known), the option string and the
    explicit argument that was glued to it. *)
Definition option_tuple : Type := option Action * pystr * option pystr.

(** [_negative_number_matcher], ['^-\d+$|^-\d*\.\d+$']: [\d] is any decimal
    digit, and [$] also matches before a final newline. *)
Fixpoint skip_digits (s : pystr) : pystr :=
  match s with
  | c :: s' => if Unicode.Py_UNICODE_ISDECIMAL c then skip_digits s' else s
  | [] => []
  end.

Definition at_end (s : pystr) : bool :=
  match s with
  | [] => true
  | [c] => c =? 0x0A
  | _ => false
  end.

Definition digits_then_end (s : pystr) : bool :=
  match s with
  | c :: _ => Unicode.Py_UNICODE_ISDECIMAL c && at_end (skip_digits s)
  | [] => false
  end.

Definition _negative_number_matcher (s : pystr) : bool :=
  match s with
  | c :: s' =>
      (c =? chr "-") &&
      (digits_then_end s' ||
       match skip_digits s' with
       | d :: s'' => (d =? chr ".") && digits_then_end s''
       | [] => false
       end)
  | [] => false
  end.

(** [_get_option_tuples]: the options an abbreviation or a run of
    single-dash flags could stand for. *)
Definition _get_option_tuples (option_string : pystr) : list option_tuple :=
  match option_string with
  | c0 :: c1 :: _ =>
      if c1 =? chr "-" then
        let '(option_prefix, explicit_arg) :=
          match Str.split1 (chr "=") option_string with
          | Some (prefix, arg) => (prefix, Some arg)
          | None => (option_string, None)
          end in
        flat_map (fun e =>
          if Str.startswith (fst e) option_prefix
          then [(Some (snd e), fst e, explicit_arg)] else [])
          _option_string_actions
      else
        let short_option_prefix := firstn 2 option_string in
        let short_explicit_arg := skipn 2 option_string in
        flat_map (fun e =>
          if str_eqb (fst e) short_option_prefix
          then [(Some (snd e), fst e, Some short_explicit_arg)]
          else if Str.startswith (fst e) option_string
          then [(Some (snd e), fst e, None)] else [])
          _option_string_actions
  | _ => []
  end.

Definition _parse_optional (arg_string : pystr) : M (option option_tuple) :=
  match arg_string with
  | [] => ret None
  | c0 :: rest =>
      if negb (c0 =? chr "-") then ret None
      else
        match get_option arg_string with
        | Some action => ret (Some (Some action, arg_string, None))
        | None =>
            match rest with
            | [] => ret None
            | _ =>
                let by_equals :=
                  match Str.split1 (chr "=") arg_string with
                  | Some (option_string, explicit_arg) =>
                      match get_option option_string with
                      | Some action =>
                          Some (Some action, option_string, Some explicit_arg)
                      | None => None
                      end
                  | None => None
                  end in
                match by_equals with
                | Some t => ret (Some t)
                | None =>
                    match _get_option_tuples arg_string with
                    | [] =>
                        if _negative_number_matcher arg_string then ret None
                        else if Str.contains (chr " ") arg_string then ret None
                        else ret (Some (None, arg_string, None))
                    | [t] => ret (Some t)
                    | option_tuples =>
                        error (ambiguous_option arg_string
                                 (map (fun t => snd (fst t)) option_tuples))
                    end
                end
            end
        end
  end.

(** One command-line string with its letter in [arg_strings_pattern]
    (['A'], ['O'] or ['-']) and, for an option, its entry in
    [option_string_indices]. *)
Inductive pattern_char := pA | pO | pDash.

Record item := {
  pattern : pattern_char;
  arg_string : pystr;
  option_tuple_of : option option_tuple
}.

(** The first loop of [_parse_known_args]: everything after the first
    ['--'] is an argument. *)
Fixpoint classify (arg_strings : list pystr) : M (list item) :=
  match arg_strings with
  | [] => ret []
  | arg :: rest =>
      if str_eqb arg (str "--") then
        ret ({| pattern := pDash; arg_string := arg; option_tuple_of := None |}
             :: map (fun a => {| pattern := pA; arg_string := a;
                                 option_tuple_of := None |}) rest)
      else
        t <~ _parse_optional arg ;;
        items <~ classify rest ;;
        ret ({| pattern := (match t with None => pA | Some _ => pO end);
                arg_string := arg; option_tuple_of := t |} :: items)
  end.

(** *** Counting the arguments of an action *)

Definition pattern_char_eqb (x y : pattern_char) : bool :=
  match x, y with
  | pA, pA | pO, pO | pDash, pDash => true
  | _, _ => false
  end.

(** The pieces the patterns of [_get_nargs_pattern] are made of: [c*],
    [c] and [c?]. *)
Inductive regex :=
| Star (c : pattern_char)
| One (c : pattern_char)
| Opt (c : pattern_char).

Definition regex_char (r : regex) : pattern_char :=
  match r with Star c | One c | Opt c => c end.

(** [_get_nargs_pattern]: the groups [-*A-*] for one argument, [-*A?-*]
    for at most one and [-*-*] for none; an option allows no ['--'] among
    its arguments, so every dash is taken out of its pattern. *)
Definition _get_nargs_pattern (a : Action) : list regex :=
  let nargs_pattern :=
    match nargs a with
    | nargs_None => [Star pDash; One pA; Star pDash]
    | OPTIONAL => [Star pDash; Opt pA; Star pDash]
    | nargs_0 => [Star pDash; Star pDash]
    end in
  match option_strings a with
  | [] => nargs_pattern
  | _ => filter (fun r => negb (pattern_char_eqb (regex_char r) pDash))
           nargs_pattern
  end.

Fixpoint count_leading (c : pattern_char) (s : list pattern_char) : nat :=
  match s with
  | x :: s' => if pattern_char_eqb x c then S (count_leading c s') else O
  | [] => O
  end.

(** [re.match] for these patterns: the length of the match at the start of
    [s]. No piece of a pattern is followed by a piece for the same letter
    that must match, so a greedy star never has to give back. *)
Fixpoint re_match (p : list regex) (s : list pattern_char) : option nat :=
  match p with
  | [] => Some O
  | Star c :: p' =>
      let n := count_leading c s in
      option_map (Nat.add n) (re_match p' (skipn n s))
  | One c :: p' =>
      match s with
      | x :: s' =>
          if pattern_char_eqb x c then option_map S (re_match p' s') else None
      | [] => None
      end
  | Opt c :: p' =>
      match s with
      | x :: s' =>
          if pattern_char_eqb x c then
            match re_match p' s' with
            | Some n => Some (S n)
            | None => re_match p' s
            end
          else re_match p' s
      | [] => re_match p' s
      end
  end.

(** [_match_argument]: how many of the strings that follow belong to the
    action. *)
Definition _match_argument (action : Action)
    (arg_strings_pattern : list pattern_char) : result nat :=
  match re_match (_get_nargs_pattern action) arg_strings_pattern with
  | Some n => Ok n
  | None =>
      Raise (ArgumentError (_get_action_name action)
               match nargs action with
               | nargs_None => expected_one_argument
               | OPTIONAL => expected_at_most_one_argument
               | nargs_0 => expected_0_arguments
               end)
  end.

(** The groups of the patterns of several actions, one after the other. *)
Fixpoint re_match_groups (ps : list (list regex)) (s : list pattern_char)
    : option (list nat) :=
  match ps with
  | [] => Some []
  | p :: ps' =>
      match re_match p s with
      | Some n => option_map (cons n) (re_match_groups ps' (skipn n s))
      | None => None
      end
  end.

(** [_match_arguments_partial]: the argument counts of the longest run of
    leading positionals that matches. *)
Fixpoint match_slices (n : nat) (actions : list Action)
    (arg_strings_pattern : list pattern_char) : list nat :=
  match n with
  | O => []
  | S n' =>
      match re_match_groups (map _get_nargs_pattern (firstn n actions))
              arg_strings_pattern with
      | Some counts => counts
      | None => match_slices n' actions arg_strings_pattern
      end
  end.

Definition _match_arguments_partial (actions : list Action)
    (arg_strings_pattern : list pattern_char) : list nat :=
  match_slices (length actions) actions arg_strings_pattern.

(** *** Taking actions *)

(** [arg_strings.remove('--')]: without its first ['--']. *)
Fixpoint remove_dashdash (arg_strings : list pystr) : list pystr :=
  match arg_strings with
  | [] => []
  | a :: l => if str_eqb a (str "--") then l else a :: remove_dashdash l
  end.

(** [action.default], for the action that can fall back on it. *)
Definition default (a : Action) : value :=
  match a with
  | format_action => format defaults
  | _ => name defaults
  end.

(** [_get_values]. No action has a [type] or [choices], so strings are
    neither converted nor checked. *)
Definition _get_values (action : Action) (arg_strings : list pystr) : value :=
  let arg_strings := remove_dashdash arg_strings in
  match arg_strings, nargs action with
  | [], OPTIONAL => default action
  | [arg_string], (nargs_None | OPTIONAL) => VStr arg_string
  | _, _ => VList arg_strings
  end.

(** [take_action]: [_StoreAction], [_StoreTrueAction] and [_HelpAction].
    The parser has no mutually exclusive group and nothing is required, so
    the sets of seen actions are not kept. *)
Definition take_action (action : Action) (argument_strings : list pystr)
    (namespace : Namespace) : M Namespace :=
  let argument_values := _get_values action argument_strings in
  match action with
  | help_action => print_help ;;; exit 0
  | name_action =>
      ret {| name := argument_values; format := format namespace;
             uppercase := uppercase namespace; summary := summary namespace;
             version := version namespace |}
  | format_action =>
      ret {| name := name namespace; format := argument_values;
             uppercase := uppercase namespace; summary := summary namespace;
             version := version namespace |}
  | uppercase_action =>
      ret {| name := name namespace; format := format namespace;
             uppercase := true; summary := summary namespace;
             version := version namespace |}
  | summary_action =>
      ret {| name := name namespace; format := format namespace;
             uppercase := uppercase namespace; summary := true;
             version := version namespace |}
  | version_action =>
      ret {| name := name namespace; format := format namespace;
             uppercase := uppercase namespace; summary := summary namespace;
             version := true |}
  end.

Fixpoint take_actions (action_tuples : list (Action * list pystr))
    (namespace : Namespace) : M Namespace :=
  match action_tuples with
  | [] => ret namespace
  | (action, args) :: l =>
      namespace' <~ take_action action args namespace ;;
      take_actions l namespace'
  end.

(** *** The state of [_parse_known_args] *)

Record state := {
  namespace : Namespace;
  positionals : list Action;
  extras : list pystr
}.

Definition is_option (it : item) : bool :=
  match pattern it with pO => true | _ => false end.

Definition arg_strings_pattern (items : list item) : list pattern_char :=
  map pattern items.

(** [consume_optional] when the option has no explicit argument: its
    arguments are among the strings that follow. *)
Definition match_following (action : Action) (following : list item)
    : result (list (Action * list pystr) * nat) :=
  arg_count <- _match_argument action (arg_strings_pattern following) ;;
  Ok ([(action, map arg_string (firstn arg_count following))], arg_count).

(** [consume_optional] when an argument is glued to the option: either it
    is the one argument of the option, or the option takes none and the
    string is a run of single-dash flags, the last of which may take the
    strings that follow. Gives the actions to take and how many of the
    following strings they use. *)
Fixpoint match_explicit (following : list item) (action : Action)
    (option_string explicit_arg : pystr) {struct explicit_arg}
    : result (list (Action * list pystr) * nat) :=
  arg_count <- _match_argument action [pA] ;;
  let ignored := Raise (ArgumentError (_get_action_name action)
                          (ignored_explicit_argument explicit_arg)) in
  match explicit_arg with
  | c :: new_explicit_arg =>
      if (arg_count =? 0)%nat && negb (nth 1 option_string 0 =? chr "-") then
        let option_string' := firstn 1 option_string ++ [c] in
        match get_option option_string' with
        | Some action' =>
            '(action_tuples, n) <-
              match new_explicit_arg with
              | [] => match_following action' following
              | _ => match_explicit following action' option_string'
                       new_explicit_arg
              end ;;
            Ok ((action, []) :: action_tuples, n)
        | None => ignored
        end
      else if (arg_count =? 1)%nat then Ok ([(action, [explicit_arg])], O)
      else ignored
  | [] =>
      if (arg_count =? 1)%nat then Ok ([(action, [explicit_arg])], O)
      else ignored
  end.

(** [consume_optional]: the option at the head of what is unread, with the
    strings after it. *)
Definition consume_optional (it : item) (following : list item) (st : state)
    : M (state * list item) :=
  match option_tuple_of it with
  | Some (Some action, option_string, explicit_arg) =>
      '(action_tuples, n) <~ lift
        match explicit_arg with
        | Some e => match_explicit following action option_string e
        | None => match_following action following
        end ;;
      namespace' <~ take_actions action_tuples (namespace st) ;;
      ret ({| namespace := namespace'; positionals := positionals st;
              extras := extras st |}, skipn n following)
  | _ =>
      ret ({| namespace := namespace st; positionals := positionals st;
              extras := extras st ++ [arg_string it] |}, following)
  end.

(** [consume_positionals]: the positionals that match the start of what is
    unread take their strings; gives the number of strings taken. *)
Fixpoint take_positionals (actions : list Action) (arg_counts : list nat)
    (unread : list item) (namespace : Namespace) : M (Namespace * nat) :=
  match actions, arg_counts with
  | action :: actions', arg_count :: arg_counts' =>
      namespace' <~ take_action action
        (map arg_string (firstn arg_count unread)) namespace ;;
      '(namespace'', n) <~ take_positionals actions' arg_counts'
        (skipn arg_count unread) namespace' ;;
      ret (namespace'', (arg_count + n)%nat)
  | _, _ => ret (namespace, O)
  end.

Definition consume_positionals (unread : list item) (st : state)
    : M (state * nat) :=
  let arg_counts :=
    _match_arguments_partial (positionals st) (arg_strings_pattern unread) in
  '(namespace', n) <~ take_positionals (positionals st) arg_counts unread
                        (namespace st) ;;
  ret ({| namespace := namespace';
          positionals := skipn (length arg_counts) (positionals st);
          extras := extras st |}, n).

(** *** The main loop of [_parse_known_args] *)

(** The strings before the next option. *)
Fixpoint until_option (unread : list item) : list item :=
  match unread with
  | it :: l => if is_option it then [] else it :: until_option l
  | [] => []
  end.

(** One turn of the loop that consumes positionals and optionals
    alternately; [unread] is [arg_strings[start_index:]] and holds an
    option. Gives what is unread after the turn. *)
Definition parse_turn (st : state) (unread : list item)
    : M (state * list item) :=
  let before := until_option unread in
  (* consume any Positionals preceding the next option *)
  '(st1, n) <~ match before with
               | [] => ret (st, O)
               | _ => consume_positionals unread st
               end ;;
  match n with
  | S _ => ret (st1, skipn n unread)
  | O =>
      (* the strings no positional took are extra arguments *)
      let st2 := {| namespace := namespace st1;
                    positionals := positionals st1;
                    extras := extras st1 ++ map arg_string before |} in
      match skipn (length before) unread with
      | it :: following => consume_optional it following st2
      | [] => ret (st2, [])
      end
  end.

(** The loop goes on as long as an option is unread
    ([start_index <= max_option_string_index]). *)
Definition parse_next (stw : state * World) (unread : list item)
    : res (signal * World) (option (state * World * list item)) :=
  if existsb is_option unread then
    match parse_turn (fst stw) unread (snd stw) with
    | Ok (st', unread', w') => Ok (Some (st', w', unread'))
    | Raise e => Raise e
    end
  else Ok None.

Lemma skipn_length_le {A} n (l : list A) : (length (skipn n l) <= length l)%nat.
Proof. rewrite length_skipn. lia. Qed.

Lemma consume_optional_length it following st w st' unread' w' :
  consume_optional it following st w = Ok (st', unread', w') ->
  (length unread' <= length following)%nat.
Proof.
  unfold consume_optional.
  destruct (option_tuple_of it) as [[[[action|] option_string] explicit_arg]|].
  2-3: intros [= _ <- _]; lia.
  unfold bindM.
  destruct (lift _ w) as [[[tuples n] w1]|]; [|discriminate].
  destruct (take_actions _ _ _) as [[ns w2]|]; [|discriminate].
  intros [= _ <- _]. apply skipn_length_le.
Qed.

Lemma parse_turn_length st unread w st' unread' w' :
  existsb is_option unread = true ->
  parse_turn st unread w = Ok (st', unread', w') ->
  (length unread' < length unread)%nat.
Proof.
  intros Hopt. unfold parse_turn, bindM.
  assert (Hne : (0 < length unread)%nat) by (destruct unread; [discriminate|simpl; lia]).
  assert (Hbefore : forall l, existsb is_option l = true ->
            exists it following, skipn (length (until_option l)) l = it :: following).
  { induction l as [|it l IH]; simpl; [discriminate|].
    destruct (is_option it); simpl; eauto. }
  destruct (Hbefore _ Hopt) as (it & following & Hskip).
  assert (Hlen : (length (it :: following) <= length unread)%nat)
    by (rewrite <- Hskip; apply skipn_length_le).
  match goal with
  | |- context [match ?m w with Ok _ => _ | Raise _ => _ end] =>
      destruct (m w) as [[[st1 n] w1]|]; [|discriminate]
  end.
  destruct n as [|n].
  - rewrite Hskip. intros H. apply consume_optional_length in H.
    simpl in Hlen. lia.
  - pose proof (length_skipn (S n) unread) as L.
    intros [= _ <- _]. simpl in L |- *. lia.
Qed.

Lemma parse_next_shrinks stw unread stw' unread' :
  parse_next stw unread = Ok (Some (stw', unread')) ->
  (length unread' < length unread)%nat.
Proof.
  unfold parse_next. destruct (existsb is_option unread) eqn:Hopt; [|discriminate].
  destruct (parse_turn _ _ _) as [[[st' u'] w']|] eqn:E; [|discriminate].
  intros [= _ <-]. eapply parse_turn_length; eauto.
Qed.

(** [_parse_known_args]: the namespace and the strings nothing took. *)
Definition _parse_known_args (arg_strings : list pystr)
    (namespace : Namespace) : M (Namespace * list pystr) :=
  items <~ classify arg_strings ;;
  '(st, unread) <~ (fun w =>
      match iterate parse_next parse_next_shrinks
              ({| namespace := namespace;
                  positionals := _get_positional_actions;
                  extras := [] |}, w) items with
      | Ok (st, w', unread) => Ok (st, unread, w')
      | Raise e => Raise e
      end) ;;
  (* consume any positionals following the last Optional *)
  '(st', stop) <~ consume_positionals unread st ;;
  (* if we didn't consume all the argument strings, there were extras *)
  ret (Argparse.namespace st',
       extras st' ++ map arg_string (skipn stop unread)).

(** [parse_known_args]: an [ArgumentError] becomes the parser's error. *)
Definition parse_known_args (args : list pystr) : M (Namespace * list pystr) :=
  fun w =>
    match _parse_known_args args defaults w with
    | Raise (Exception (ArgumentError argument_name message), w') =>
        error (argument_error argument_name message) w'
    | r => r
    end.

Definition parse_args (args : list pystr) : M Namespace :=
  '(namespace, argv) <~ parse_known_args args ;;
  match argv with
  | [] => ret namespace
  | _ => error (unrecognized_arguments argv)
  end.

End Argparse.

(** ** The script *)

Module Hello.

Import Argparse.

(** [args.format.format(name=args.name)]: only a [str] has the method. *)
Definition format_greeting (rt : Format.Runtime) (fmt name : value)
    : result pystr :=
  match fmt with
  | VStr f =>
      Format.do_string_format rt
        (match name with
         | VStr s => Format.PyStr s
         | VList l => Format.PyList l
         end) f
  | VList _ => Raise (AttributeError "'list' object has no attribute 'format'")
  end.

(** [main()], given [sys.argv[1:]]. *)
Definition main (rt : Format.Runtime) (argv : list pystr) : M Z :=
  args <~ parse_args argv ;;
  (* Handle special rc command flags *)
  if summary args then
    print (str "Displays a customizable greeting message (Python version)") ;;;
    ret 0%Z
  else if version args then
    print (str "hello - rcForge Utility v0.4.1") ;;;
    ret 0%Z
  else
    (* Main functionality *)
    greeting <~ lift (format_greeting rt (format args) (name args)) ;;
    let greeting := if uppercase args then Str.upper greeting else greeting in
    print greeting ;;;
    ret 0%Z.

(** What a run of the process leaves behind. *)
Record Outcome := {
  out : list output;
  err : list output;
  status : Z
}.

(** The streams when the process starts. *)
Definition startup : World := {| stdout := []; stderr := [] |}.

(** [sys.exit(main())] under the interpreter: [SystemExit] sets the exit
    status; any other exception is reported on standard error and the
    status is 1. *)
Definition run (rt : Format.Runtime) (argv : list pystr) : Outcome :=
  match (code <~ main rt argv ;; (sys_exit code : M unit)) startup with
  | Ok (_, w) =>
      {| out := stdout w; err := stderr w; status := 0 |}
  | Raise (SystemExit code, w) =>
      {| out := stdout w; err := stderr w; status := code |}
  | Raise (Exception e, w) =>
      {| out := stdout w; err := stderr w ++ [Traceback e]; status := 1 |}
  end.

End Hello.

(** * Properties *)

(** ** Loops *)

(** An invariant of a loop holds when the loop ends, and the loop ends
    where [next] stops; a loop that raises does so in a turn taken from a
    state where the invariant holds. *)
Lemma iterate_cases {E St A} (next : St -> list A -> res E (option (St * list A)))
    shrinks (I : St -> list A -> Prop) :
  (forall st s st' s', I st s -> next st s = Ok (Some (st', s')) -> I st' s') ->
  forall st s, I st s ->
  match iterate next shrinks st s with
  | Ok (st', s') => I st' s' /\ next st' s' = Ok None
  | Raise e => exists st1 s1, I st1 s1 /\ next st1 s1 = Raise e
  end.
Proof.
  intros Hstep st s. remember (length s) as n eqn:Hn.
  revert st s Hn. induction n as [n IH] using lt_wf_ind. intros st s -> HI.
  rewrite iterate_step.
  destruct (next st s) as [[[st' s']|]|e] eqn:Hnext.
  - apply (IH (length s')); eauto.
  - split; assumption.
  - eauto.
Qed.

(** ** Templates: the format strings the script is meant for *)

(** The constructs of a format string that [str.format] accepts whatever
    the name is: the placeholder and the two escaped braces. *)
Inductive piece :=
| Placeholder     (* {name} *)
| OpenBrace       (* {{ *)
| CloseBrace.     (* }} *)

Definition piece_source (p : piece) : pystr :=
  match p with
  | Placeholder => str "{name}"
  | OpenBrace => str "{{"
  | CloseBrace => str "}}"
  end.

Definition piece_value (name : pystr) (p : piece) : pystr :=
  match p with
  | Placeholder => name
  | OpenBrace => str "{"
  | CloseBrace => str "}"
  end.

Definition is_brace (c : N) : bool := (c =? chr "{") || (c =? chr "}").

Definition no_brace (s : pystr) : bool := forallb (fun c => negb (is_brace c)) s.

(** A template: texts without braces, each followed by a construct, and a
    last text. *)
Fixpoint source (segments : list (pystr * piece)) (last : pystr) : pystr :=
  match segments with
  | [] => last
  | (text, p) :: segments' => text ++ piece_source p ++ source segments' last
  end.

(** The template with every construct replaced by what it stands for. *)
Fixpoint fill (name : pystr) (segments : list (pystr * piece)) (last : pystr)
    : pystr :=
  match segments with
  | [] => last
  | (text, p) :: segments' => text ++ piece_value name p ++ fill name segments' last
  end.

Definition texts_no_brace (segments : list (pystr * piece)) (last : pystr) : bool :=
  forallb (fun seg => no_brace (fst seg)) segments && no_brace last.




Section FormatFacts.
Import Format.
Variable rt : Runtime.
Variable nm : pystr.

Lemma literal_end_no_brace text :
  no_brace text = true -> literal_end text = (text, None).
Proof.
  induction text as [|c text IH]; simpl; [reflexivity|].
  intros H. apply andb_prop in H as [Hc Ht].
  unfold is_brace in Hc. apply negb_true_iff in Hc. rewrite Hc.
  rewrite (IH Ht). reflexivity.
Qed.

Lemma literal_end_brace text c rest :
  no_brace text = true -> is_brace c = true ->
  literal_end (text ++ c :: rest) = (text, Some (c, rest)).
Proof.
  intros Ht Hc. induction text as [|c0 text IH]; simpl.
  - unfold is_brace in Hc. rewrite Hc. reflexivity.
  - simpl in Ht. apply andb_prop in Ht as [Hc0 Ht].
    unfold is_brace in Hc0. apply negb_true_iff in Hc0. rewrite Hc0.
    rewrite (IH Ht). reflexivity.
Qed.

(** The field [{name}]. *)
Definition name_field : field :=
  {| field_name := str "name"; format_spec := []; conversion := 0;
     format_spec_needs_expanding := false |}.

Lemma MarkupIterator_next_piece text p rest :
  no_brace text = true ->
  MarkupIterator_next (text ++ piece_source p ++ rest) =
  Ok (Some match p with
           | Placeholder =>
               {| literal := text; field_present := Some name_field;
                  unread := rest |}
           | _ =>
               {| literal := text ++ piece_value nm p; field_present := None;
                  unread := rest |}
           end).
Proof.
  intros Ht. unfold MarkupIterator_next.
  assert (Hne : exists c s, text ++ piece_source p ++ rest = c :: s).
  { destruct text; destruct p; simpl; eauto. }
  destruct Hne as (c0 & s0 & Hne). rewrite Hne, <- Hne. clear Hne c0 s0.
  destruct p; cbn [piece_source];
    change (str "{name}") with (chr "{" :: str "name}");
    change (str "{{") with [chr "{"; chr "{"];
    change (str "}}") with [chr "}"; chr "}"];
    cbn [app]; rewrite literal_end_brace by (assumption || reflexivity);
    reflexivity.
Qed.

Lemma MarkupIterator_next_text text :
  no_brace text = true ->
  MarkupIterator_next text =
  Ok match text with
     | [] => None
     | _ => Some {| literal := text; field_present := None; unread := [] |}
     end.
Proof.
  intros Ht. unfold MarkupIterator_next. destruct text as [|c text]; [reflexivity|].
  rewrite (literal_end_no_brace _ Ht). reflexivity.
Qed.

Lemma field_name_split_name auto_number :
  field_name_split (str "name") auto_number =
  Ok (str "name", (-1)%Z, [], auto_number).
Proof. destruct auto_number as [[] number]; reflexivity. Qed.

Lemma get_field_object_name obj auto_number :
  get_field_object rt obj (str "name") auto_number = Ok (obj, auto_number).
Proof.
  unfold get_field_object. rewrite field_name_split_name.
  cbn -[iterate]. rewrite iterate_step. reflexivity.
Qed.

Lemma output_markup_name expand writer auto_number :
  output_markup rt (PyStr nm) expand name_field writer auto_number =
  Ok (writer ++ nm, auto_number).
Proof.
  unfold output_markup. cbn [field_name name_field].
  rewrite get_field_object_name. reflexivity.
Qed.

(** The loop of [do_markup] over a template writes the filled template. *)
Lemma iterate_template expand segments last writer auto_number :
  texts_no_brace segments last = true ->
  iterate (markup_next rt (PyStr nm) expand)
    (markup_next_shrinks rt (PyStr nm) expand)
    (writer, auto_number) (source segments last) =
  Ok (writer ++ fill nm segments last, auto_number, []).
Proof.
  revert writer. induction segments as [|[text p] segments IH]; intros writer H.
  - cbn [source fill]. unfold texts_no_brace in H. simpl in H.
    rewrite iterate_step. unfold markup_next.
    rewrite (MarkupIterator_next_text _ H). destruct last as [|c last].
    + cbn -[iterate]. rewrite app_nil_r. reflexivity.
    + cbn -[iterate]. rewrite iterate_step. reflexivity.
  - unfold texts_no_brace in H. cbn [forallb fst] in H.
    apply andb_prop in H as [H Hlast]. apply andb_prop in H as [Ht Hs].
    cbn [source fill]. rewrite iterate_step. unfold markup_next.
    rewrite (MarkupIterator_next_piece _ _ _ Ht).
    assert (Hrest : texts_no_brace segments last = true)
      by (unfold texts_no_brace; rewrite Hs, Hlast; reflexivity).
    destruct p; cbn -[iterate str];
      try rewrite output_markup_name; cbn -[iterate str];
      rewrite IH by assumption; rewrite <- ?app_assoc; reflexivity.
Qed.

Lemma do_string_format_template segments last :
  texts_no_brace segments last = true ->
  do_string_format rt (PyStr nm) (source segments last) =
  Ok (fill nm segments last).
Proof.
  intros H. unfold do_string_format. cbn [build_string]. unfold do_markup.
  rewrite iterate_template by assumption. reflexivity.
Qed.
End FormatFacts.

(** ** What the parser writes *)

(** The parser writes nothing unless it leaves: with its help on standard
    output and status 0, or with a usage error on standard error and
    status 2. Inside [_parse_known_args] an [ArgumentError] travels up to
    [parse_known_args] first. *)
Definition with_help (w : World) : World :=
  {| stdout := stdout w ++ [Help]; stderr := stderr w |}.

Definition with_error (message : error_message) (w : World) : World :=
  {| stdout := stdout w; stderr := stderr w ++ [Usage; Error message] |}.

Definition parser_exit (w : World) (r : signal * World) : Prop :=
  r = (SystemExit 0, with_help w) \/
  exists message, r = (SystemExit 2, with_error message w).

Definition aborts (w : World) (r : signal * World) : Prop :=
  (exists argument_name message,
     r = (Exception (ArgumentError argument_name message), w)) \/
  parser_exit w r.

Definition tame {A} (m : M A) : Prop :=
  forall w, match m w with
            | Ok (_, w') => w' = w
            | Raise r => aborts w r
            end.

Definition argument_errors {A} (r : result A) : Prop :=
  match r with
  | Ok _ => True
  | Raise e => exists argument_name message, e = ArgumentError argument_name message
  end.

Section ParserWrites.
Import Argparse.

Lemma tame_ret {A} (a : A) : tame (ret a).
Proof. intros w. reflexivity. Qed.

Lemma tame_bind {A B} (m : M A) (k : A -> M B) :
  tame m -> (forall a, tame (k a)) -> tame (bindM m k).
Proof.
  intros Hm Hk w. unfold bindM. specialize (Hm w).
  destruct (m w) as [[a w']|r]; [|assumption]. subst w'. apply Hk.
Qed.

Lemma error_eq {A} message w :
  @error A message w = Raise (SystemExit 2, with_error message w).
Proof. cbn. unfold with_error. cbn. rewrite <- app_assoc. reflexivity. Qed.

Lemma tame_error {A} message : tame (@error A message).
Proof. intros w. rewrite error_eq. right. right. eauto. Qed.

Lemma tame_lift {A} (r : result A) : argument_errors r -> tame (lift r).
Proof.
  intros H w. destruct r as [a|e]; cbn; [reflexivity|].
  destruct H as (n & m & ->). left. eauto.
Qed.

Create HintDb tame.
Hint Resolve tame_ret tame_error : tame.

Lemma tame_parse_optional arg : tame (_parse_optional arg).
Proof.
  unfold _parse_optional.
  repeat match goal with
         | |- tame (match ?x with _ => _ end) => destruct x
         | |- tame (if ?x then _ else _) => destruct x
         | |- tame (let '(_, _) := ?x in _) => destruct x
         end; auto with tame.
Qed.

Lemma tame_classify args : tame (classify args).
Proof.
  induction args as [|arg args IH]; cbn [classify]; auto with tame.
  destruct (str_eqb arg (str "--")); auto with tame.
  apply tame_bind; [apply tame_parse_optional|]. intros t.
  apply tame_bind; [assumption|]. auto with tame.
Qed.

Lemma tame_take_action action args ns : tame (take_action action args ns).
Proof.
  destruct action; cbn [take_action]; auto with tame.
  intros w. cbn. right. left. reflexivity.
Qed.

Lemma tame_take_actions tuples ns : tame (take_actions tuples ns).
Proof.
  revert ns. induction tuples as [|[action args] tuples IH]; intros ns;
    cbn [take_actions]; auto with tame.
  apply tame_bind; [apply tame_take_action|]. auto.
Qed.

Lemma match_argument_errors action p : argument_errors (_match_argument action p).
Proof. unfold _match_argument. destruct (re_match _ _); cbn; eauto. Qed.

Lemma match_following_errors action following :
  argument_errors (match_following action following).
Proof.
  unfold match_following.
  pose proof (match_argument_errors action (arg_strings_pattern following)) as H.
  destruct (_match_argument _ _); cbn; auto.
Qed.

Lemma match_explicit_errors following action option_string explicit_arg :
  argument_errors (match_explicit following action option_string explicit_arg).
Proof.
  revert action option_string.
  induction explicit_arg as [|c e IH]; intros action option_string;
    cbn [match_explicit];
    pose proof (match_argument_errors action [pA]) as H;
    destruct (_match_argument action [pA]) as [arg_count|]; cbn [bind]; auto.
  - destruct (arg_count =? 1)%nat; cbn; eauto.
  - destruct ((arg_count =? 0)%nat && _).
    + destruct (get_option _) as [action'|]; [|cbn; eauto].
      assert (Hnext : argument_errors
                match e with
                | [] => match_following action' following
                | _ => match_explicit following action'
                         (firstn 1 option_string ++ [c]) e
                end).
      { destruct e; [apply match_following_errors | apply IH]. }
      destruct (match e with [] => _ | _ => _ end) as [[tuples n]|];
        cbn; auto.
    + destruct (arg_count =? 1)%nat; cbn; eauto.
Qed.

Lemma tame_consume_optional it following st :
  tame (consume_optional it following st).
Proof.
  unfold consume_optional.
  destruct (option_tuple_of it) as [[[[action|] option_string] explicit_arg]|];
    auto with tame.
  apply tame_bind.
  - apply tame_lift. destruct explicit_arg;
      [apply match_explicit_errors | apply match_following_errors].
  - intros [tuples n]. apply tame_bind; [apply tame_take_actions|].
    auto with tame.
Qed.

Lemma tame_take_positionals actions counts unread ns :
  tame (take_positionals actions counts unread ns).
Proof.
  revert counts unread ns. induction actions as [|action actions IH];
    intros counts unread ns; cbn [take_positionals]; auto with tame.
  destruct counts as [|count counts]; auto with tame.
  apply tame_bind; [apply tame_take_action|]. intros ns'.
  apply tame_bind; [apply IH|]. intros [ns'' n]. auto with tame.
Qed.

Lemma tame_consume_positionals unread st : tame (consume_positionals unread st).
Proof.
  unfold consume_positionals.
  apply tame_bind; [apply tame_take_positionals|].
  intros [ns n]. auto with tame.
Qed.

Lemma tame_parse_turn st unread : tame (parse_turn st unread).
Proof.
  unfold parse_turn. apply tame_bind.
  - destruct (until_option unread); auto with tame.
    apply tame_consume_positionals.
  - intros [st1 n]. destruct n; auto with tame.
    destruct (skipn _ unread); auto with tame.
    apply tame_consume_optional.
Qed.

(** The loop: the streams it is given are the streams it returns. *)
Lemma parse_loop_world (I : state -> list item -> Prop) st w items :
  (forall st s st' s' w', I st s -> existsb is_option s = true ->
     parse_turn st s w = Ok (st', s', w') -> I st' s') ->
  I st items ->
  match iterate parse_next parse_next_shrinks (st, w) items with
  | Ok (st', w', unread) =>
      w' = w /\ I st' unread /\ existsb is_option unread = false
  | Raise r => exists st1 s1, I st1 s1 /\ existsb is_option s1 = true /\
                 parse_turn st1 s1 w = Raise r
  end.
Proof.
  intros Hturn HI.
  pose proof (iterate_cases parse_next parse_next_shrinks
                (fun stw s => snd stw = w /\ I (fst stw) s)) as H.
  specialize (H ltac:(
    intros [st1 w1] s [st' w'] s' [Hw HI1]; cbn in Hw, HI1; subst w1;
    unfold parse_next; cbn [fst snd];
    destruct (existsb is_option s) eqn:Hopt; [|discriminate];
    pose proof (tame_parse_turn st1 s w) as Ht;
    destruct (parse_turn st1 s w) as [[[st2 s2] w2]|] eqn:E; [|discriminate];
    intros [= -> -> ->]; cbn; split; [assumption|]; eauto)).
  specialize (H (st, w) items (conj eq_refl HI)).
  destruct (iterate _ _ _ _) as [[[st' w'] unread]|r].
  - destruct H as [[Hw HI'] Hstop]. cbn in Hw, HI'. repeat split; auto.
    unfold parse_next in Hstop.
    destruct (existsb is_option unread); [|reflexivity].
    destruct (parse_turn _ _ _) as [[[? ?] ?]|]; discriminate.
  - destruct H as ([st1 w1] & s1 & [Hw HI1] & Hnext). cbn in Hw, HI1. subst w1.
    exists st1, s1. unfold parse_next in Hnext. cbn [fst snd] in Hnext.
    destruct (existsb is_option s1); [|discriminate].
    destruct (parse_turn st1 s1 w) as [[[? ?] ?]|r']; [discriminate|].
    injection Hnext as ->. auto.
Qed.

Lemma tame_parse_known_args_inner args ns : tame (_parse_known_args args ns).
Proof.
  unfold _parse_known_args. apply tame_bind; [apply tame_classify|].
  intros items. apply tame_bind.
  - intros w.
    pose proof (parse_loop_world (fun _ _ => True)
                  {| namespace := ns; positionals := _get_positional_actions;
                     extras := [] |} w items ltac:(auto) I) as H.
    destruct (iterate _ _ _ _) as [[[st' w'] unread]|r].
    + apply H.
    + destruct H as (st1 & s1 & _ & _ & H).
      pose proof (tame_parse_turn st1 s1 w) as Ht. rewrite H in Ht. exact Ht.
  - intros [st unread]. apply tame_bind; [apply tame_consume_positionals|].
    intros [st' stop]. auto with tame.
Qed.

(** [parse_args] returns with the streams untouched, or leaves through
    the parser's exit. *)
Lemma parse_args_cases argv w :
  match parse_args argv w with
  | Ok (_, w') => w' = w
  | Raise r => parser_exit w r
  end.
Proof.
  assert (Hknown : match parse_known_args argv w with
                   | Ok (_, w') => w' = w
                   | Raise r => parser_exit w r
                   end).
  { unfold parse_known_args.
    pose proof (tame_parse_known_args_inner argv defaults w) as H.
    destruct (_parse_known_args argv defaults w) as [[a w']|[sig w']];
      [assumption|].
    destruct H as [(n & m & [= -> ->])|H].
    - rewrite error_eq. right. eauto.
    - destruct sig as [e|code].
      + destruct H as [H|[m H]]; discriminate.
      + exact H. }
  unfold parse_args, bindM.
  destruct (parse_known_args argv w) as [[[ns extra] w']|r]; [|assumption].
  subst w'. destruct extra; [reflexivity|].
  rewrite error_eq. right. eauto.
Qed.
End ParserWrites.

(** ** Runs *)

Section Runs.
Import Argparse Hello.
Variable rt : Format.Runtime.

(** A run that prints one string and succeeds. *)
Definition printed (s : pystr) : Outcome :=
  {| out := [Text (s ++ [0x0A])]; err := []; status := 0 |}.

(** A run that ends in an uncaught exception. *)
Definition crashed (e : exn) : Outcome :=
  {| out := []; err := [Traceback e]; status := 1 |}.

(** A run the parser ended. *)
Definition helped : Outcome :=
  {| out := [Help]; err := []; status := 0 |}.

Definition rejected (message : error_message) : Outcome :=
  {| out := []; err := [Usage; Error message]; status := 2 |}.

Lemma run_parsed argv args w :
  parse_args argv startup = Ok (args, w) ->
  run rt argv =
  if summary args then
    printed (str "Displays a customizable greeting message (Python version)")
  else if version args then printed (str "hello - rcForge Utility v0.4.1")
  else match format_greeting rt (format args) (name args) with
       | Ok greeting =>
           printed (if uppercase args then Str.upper greeting else greeting)
       | Raise e => crashed e
       end.
Proof.
  intros H. pose proof (parse_args_cases argv startup) as Hw.
  rewrite H in Hw. subst w.
  unfold run, main, bindM. rewrite H.
  destruct (summary args); [reflexivity|].
  destruct (version args); [reflexivity|].
  destruct (format_greeting rt (format args) (name args)); reflexivity.
Qed.

Lemma run_not_parsed argv r :
  parse_args argv startup = Raise r ->
  run rt argv = helped \/ exists message, run rt argv = rejected message.
Proof.
  intros H. pose proof (parse_args_cases argv startup) as Hr.
  rewrite H in Hr. unfold run, main, bindM. rewrite H.
  destruct Hr as [->|[message ->]]; [left|right; exists message]; reflexivity.
Qed.
End Runs.

(** ** The fixed lines *)

(** C2: if the summary flag is set, the program prints exactly the fixed
    description and returns exit status 0, whatever the other flags and
    the positional argument are. *)
Theorem summary_prints_description rt argv args w :
  Argparse.parse_args argv Hello.startup = Ok (args, w) ->
  Argparse.summary args = true ->
  Hello.run rt argv =
  printed (str "Displays a customizable greeting message (Python version)").
Proof.
  intros Hparse Hsummary. rewrite (run_parsed rt argv args w Hparse).
  rewrite Hsummary. reflexivity.
Qed.

Lemma summary_prints_description_witness :
  Hello.run no_answers
    [str "World"; str "--version"; str "-u"; str "--format"; str "{oops";
     str "--summary"] =
  printed (str "Displays a customizable greeting message (Python version)").
Proof.
  eapply summary_prints_description; vm_compute; reflexivity.
Defined.

(** C3: if the version flag is set and the summary flag is not, the
    program prints exactly the fixed version line and returns exit status
    0; the name, the format and the uppercase flag have no effect. *)
Theorem version_prints_version rt argv args w :
  Argparse.parse_args argv Hello.startup = Ok (args, w) ->
  Argparse.summary args = false ->
  Argparse.version args = true ->
  Hello.run rt argv = printed (str "hello - rcForge Utility v0.4.1").
Proof.
  intros Hparse Hsummary Hversion. rewrite (run_parsed rt argv args w Hparse).
  rewrite Hsummary, Hversion. reflexivity.
Qed.

Lemma version_prints_version_witness :
  Hello.run no_answers
    [str "--version"; str "World"; str "--uppercase"; str "--format=}{"] =
  printed (str "hello - rcForge Utility v0.4.1").
Proof.
  eapply version_prints_version; vm_compute; reflexivity.
Defined.

(** ** Format strings with something else between braces *)



Section FormatRefusals.
Import Format.
Variable rt : Runtime.

Lemma startswith_nil s : Str.startswith s [] = true.
Proof. destruct s; reflexivity. Qed.

Lemma fill_last nm segments last :
  fill nm segments last = fill nm segments [] ++ last.
Proof.
  induction segments as [|[text p] segments IH]; cbn [fill]; [reflexivity|].
  rewrite IH, !app_assoc. reflexivity.
Qed.










End FormatRefusals.

(** ** The greeting *)


Section Replace.
Variable new : pystr.




End Replace.




(** C5, as the code has it: for a format string made of texts without
    braces, placeholders [{name}] and escaped braces, the substitution
    step returns the filled template for every name; it raises nothing. *)
Theorem template_formatting_cannot_fail rt segments last nm :
  texts_no_brace segments last = true ->
  Hello.format_greeting rt (Argparse.VStr (source segments last))
    (Argparse.VStr nm) = Ok (fill nm segments last).
Proof.
  intros H. cbn [Hello.format_greeting].
  apply do_string_format_template. exact H.
Qed.

Lemma template_formatting_cannot_fail_witness :
  Hello.format_greeting no_answers
    (Argparse.VStr (str "{{Hi}}, {name} and {name}!")) (Argparse.VStr (str "{name}"))
  = Ok (str "{Hi}, {name} and {name}!").
Proof.
  apply (template_formatting_cannot_fail no_answers
           [([], OpenBrace); (str "Hi", CloseBrace); (str ", ", Placeholder);
            (str " and ", Placeholder)] (str "!") (str "{name}") eq_refl).
Defined.

(** C5 fails for a format string with an unmatched brace: the substitution
    step raises [ValueError] and the script ends with status 1. *)
Lemma single_brace_raises :
  (forall rt nm,
     Hello.format_greeting rt (Argparse.VStr (str "{")) (Argparse.VStr nm) =
     Raise (ValueError "Single '{' encountered in format string")) /\
  (forall rt, Hello.run rt [str "--format"; str "{"] =
     crashed (ValueError "Single '{' encountered in format string")).
Proof. split; intros; vm_compute; reflexivity. Qed.










(** ** Upper case *)

Definition is_ascii (c : N) : bool := c <? 128.

(** The upper-case letter of an ASCII letter. *)
Definition ascii_upper (c : N) : N :=
  if (chr "a" <=? c) && (c <=? chr "z") then c - 32 else c.





Lemma upper_ascii_char c :
  is_ascii c = true -> Unicode._PyUnicode_ToUpperFull c = [ascii_upper c].
Proof.
  intros H.
  assert (Hall : forallb (fun n =>
            match Unicode._PyUnicode_ToUpperFull n with
            | [d] => d =? ascii_upper n
            | _ => false
            end) (map N.of_nat (seq 0 128)) = true) by (vm_compute; reflexivity).
  rewrite forallb_forall in Hall.
  specialize (Hall c). unfold is_ascii in H. apply N.ltb_lt in H.
  assert (Hin : In c (map N.of_nat (seq 0 128))).
  { apply in_map_iff. exists (N.to_nat c). split; [apply N2Nat.id|].
    apply in_seq. lia. }
  specialize (Hall Hin).
  destruct (Unicode._PyUnicode_ToUpperFull c) as [|d [|]]; try discriminate.
  apply N.eqb_eq in Hall. subst d. reflexivity.
Qed.





(** ** Arguments the parser cannot accept *)

Section ParserRejects.
Import Argparse.





















Lemma skipn_until_option l :
  existsb is_option l = true ->
  exists it following,
    skipn (length (until_option l)) l = it :: following /\ is_option it = true.
Proof.
  induction l as [|it l IH]; cbn [existsb until_option]; [discriminate|].
  destruct (is_option it) eqn:E; cbn [orb length skipn]; eauto.
Qed.




End ParserRejects.

(** ** Unknown flags and missing values on the command line *)

Section Malformed.
Import Argparse.

(** What [_parse_optional] makes of one string, when it does not end the
    parser with an ambiguity. *)
Definition classified (t : pystr) : option (option option_tuple) :=
  match _parse_optional t Hello.startup with
  | Ok (x, _) => Some x
  | Raise _ => None
  end.

(** A string the parser takes for an option it does not know. *)
Definition unknown_flag (t : pystr) : bool :=
  match classified t with
  | Some (Some (None, _, _)) => true
  | _ => false
  end.



Lemma str_eqb_eq s t : str_eqb s t = true <-> s = t.
Proof.
  revert t. induction s as [|c s IH]; intros [|d t]; cbn; split;
    try discriminate; try reflexivity.
  - intros H. apply andb_prop in H as [Hc Hs]. apply N.eqb_eq in Hc.
    apply IH in Hs. congruence.
  - intros [= -> ->]. rewrite N.eqb_refl. apply IH. reflexivity.
Qed.

Lemma parse_optional_uniform t :
  (exists x, _parse_optional t = ret x) \/
  (exists message, _parse_optional t = error message).
Proof.
  unfold _parse_optional.
  repeat match goal with
         | |- context [match ?y with _ => _ end] => destruct y
         | |- context [if ?y then _ else _] => destruct y
         end; eauto.
Qed.



End Malformed.




(** ** Two runs with the same arguments *)





(** * The command line *)

(** ** Strings the parser takes for positionals *)

Section Positionals.
Import Argparse.
Local Arguments N.eqb _ _ : simpl nomatch.

(** A string that is a positional whatever the options of the parser are:
    it does not start with a dash, or it is a negative number. *)
Definition looks_positional (s : pystr) : bool :=
  negb (Str.startswith s (str "-")) || _negative_number_matcher s.

Lemma get_option_some s a :
  get_option s = Some a -> In (s, a) _option_string_actions.
Proof.
  unfold get_option.
  destruct (find _ _) as [[k a']|] eqn:E; [|discriminate].
  intros Ha. injection Ha as ->. apply find_some in E as [Hin Hk].
  cbn [fst] in Hk. apply str_eqb_eq in Hk. subst k. exact Hin.
Qed.

Lemma negative_number_shape t :
  _negative_number_matcher t = true ->
  exists c1 r, t = chr "-" :: c1 :: r /\
               (Unicode.Py_UNICODE_ISDECIMAL c1 = true \/ c1 = chr ".").
Proof.
  destruct t as [|c0 [|c1 r]]; cbn [_negative_number_matcher];
    [discriminate| |].
  - rewrite andb_false_r. discriminate.
  - intros H. apply andb_prop in H as [H0 H]. apply N.eqb_eq in H0. subst c0.
    exists c1, r. split; [reflexivity|].
    cbn [digits_then_end skip_digits] in H.
    destruct (Unicode.Py_UNICODE_ISDECIMAL c1); [left; reflexivity|].
    cbn [andb orb] in H. apply andb_prop in H as [H _].
    apply N.eqb_eq in H. right. exact H.
Qed.

Lemma split1_app sep s a b :
  Str.split1 sep s = Some (a, b) -> s = a ++ sep :: b.
Proof.
  revert a b. induction s as [|c s IH]; intros a b; cbn [Str.split1];
    [discriminate|].
  destruct (c =? sep) eqn:E.
  - apply N.eqb_eq in E. subst c. intros [= <- <-]. reflexivity.
  - destruct (Str.split1 sep s) as [[a' b']|]; [|discriminate].
    intros [= <- <-]. cbn [app]. rewrite (IH a' b' eq_refl) at 1. reflexivity.
Qed.

Lemma parse_optional_negative t :
  _negative_number_matcher t = true ->
  str_eqb t (str "--") = false /\ _parse_optional t = ret None.
Proof.
  intros Hneg.
  destruct (negative_number_shape t Hneg) as (c1 & r & -> & Hc1).
  assert (Hnot : forall x, In x [chr "-"; chr "h"; chr "u"] ->
                           (x =? c1) = false).
  { intros x Hx. apply N.eqb_neq. intros E. subst x.
    destruct Hc1 as [Hd|Hd];
      cbn in Hx; repeat destruct Hx as [Hx|Hx]; try contradiction;
      rewrite <- Hx in Hd; vm_compute in Hd; discriminate. }
  assert (Hdash : (chr "-" =? c1) = false) by (apply Hnot; cbn; auto).
  assert (Hh : (chr "h" =? c1) = false) by (apply Hnot; cbn; auto).
  assert (Hu : (chr "u" =? c1) = false) by (apply Hnot; cbn; auto).
  change (chr "-") with 45 in *. change (chr "h") with 104 in *.
  change (chr "u") with 117 in *.
  assert (Hoption : forall o e,
            o ++ e = 45 :: c1 :: r -> get_option o = None).
  { intros o e Ho. destruct (get_option o) as [a|] eqn:Eo; [|reflexivity].
    apply get_option_some in Eo. cbn in Eo.
    repeat destruct Eo as [Eo|Eo]; try contradiction;
      injection Eo as <- _; cbn in Ho; injection Ho as Hc _; subst c1;
      vm_compute in Hdash, Hh, Hu; congruence. }
  split.
  - cbn. rewrite (N.eqb_sym c1 45), Hdash. reflexivity.
  - unfold _parse_optional. cbn [negb]. rewrite N.eqb_refl. cbn [negb].
    rewrite (Hoption (45 :: c1 :: r) []) by apply app_nil_r.
    assert (Hequals : match Str.split1 (chr "=") (45 :: c1 :: r) with
                      | Some (option_string, explicit_arg) =>
                          match get_option option_string with
                          | Some action =>
                              Some (Some action, option_string,
                                    Some explicit_arg)
                          | None => None
                          end
                      | None => None
                      end = None).
    { destruct (Str.split1 (chr "=") (45 :: c1 :: r)) as [[o e]|] eqn:Es;
        [|reflexivity].
      apply split1_app in Es.
      rewrite (Hoption o (chr "=" :: e)) by (symmetry; exact Es).
      reflexivity. }
    rewrite Hequals.
    assert (Htuples : _get_option_tuples (45 :: c1 :: r) = []).
    { unfold _get_option_tuples. change (chr "-") with 45.
      rewrite (N.eqb_sym c1 45), Hdash.
      cbn. rewrite ?Hdash, ?Hh, ?Hu. cbn. rewrite ?andb_false_r. reflexivity. }
    rewrite Htuples, Hneg. reflexivity.
Qed.

Lemma parse_optional_positional s :
  looks_positional s = true ->
  str_eqb s (str "--") = false /\ _parse_optional s = ret None.
Proof.
  unfold looks_positional. intros H. apply orb_prop in H as [H|H];
    [|apply parse_optional_negative; exact H].
  apply negb_true_iff in H.
  destruct s as [|c s]; [split; reflexivity|].
  cbn [Str.startswith str map list_ascii_of_string] in H.
  rewrite startswith_nil, andb_true_r in H. fold (chr "-") in H.
  split.
  - cbn [str_eqb str map list_ascii_of_string]. fold (chr "-").
    rewrite H. reflexivity.
  - unfold _parse_optional. rewrite H. reflexivity.
Qed.

Lemma positional_not_dashdash s :
  looks_positional s = true -> str_eqb s (str "--") = false.
Proof. intros H. apply (parse_optional_positional s H). Qed.
End Positionals.

(** ** Plain command lines *)

Section PlainCommandLines.
Import Argparse.

(** [_parse_known_args] once the strings are told apart: the loop over the
    options, then the positionals after the last option. *)
Definition parse_items (items : list item) (st : state)
    : M (Namespace * list pystr) :=
  '(st, unread) <~ (fun w =>
      match iterate parse_next parse_next_shrinks (st, w) items with
      | Ok (st, w', unread) => Ok (st, unread, w')
      | Raise e => Raise e
      end) ;;
  '(st', stop) <~ consume_positionals unread st ;;
  ret (Argparse.namespace st',
       extras st' ++ map arg_string (skipn stop unread)).

Lemma parse_known_args_items arg_strings ns :
  _parse_known_args arg_strings ns =
  (items <~ classify arg_strings ;;
   parse_items items {| namespace := ns;
                        positionals := _get_positional_actions;
                        extras := [] |}).
Proof. reflexivity. Qed.

Lemma parse_items_turn items st w :
  existsb is_option items = true ->
  parse_items items st w =
  match parse_turn st items w with
  | Ok (st', unread', w') => parse_items unread' st' w'
  | Raise e => Raise e
  end.
Proof.
  intros Hopt. unfold parse_items, bindM. rewrite iterate_step.
  unfold parse_next at 1. cbn [fst snd]. rewrite Hopt.
  destruct (parse_turn st items w) as [[[st' unread'] w']|e]; reflexivity.
Qed.

Lemma parse_items_last items st w :
  existsb is_option items = false ->
  parse_items items st w =
  ('(st', stop) <~ consume_positionals items st ;;
   ret (Argparse.namespace st',
        extras st' ++ map arg_string (skipn stop items))) w.
Proof.
  intros Hopt. unfold parse_items, bindM. rewrite iterate_step.
  unfold parse_next at 1. cbn [fst snd]. rewrite Hopt. reflexivity.
Qed.

(** Whether a written option stands for an option string of the parser: it
    is that string, or it holds the two dashes and a letter at least and
    the option string begins with it. *)
Definition stands_for (written option_string : pystr) : bool :=
  str_eqb written option_string ||
  ((3 <=? length written)%nat && Str.startswith option_string written).

(** The option string and the action a written option stands for. *)
Definition written_option (written : pystr) : option (pystr * Action) :=
  find (fun e => stands_for written (fst e)) _option_string_actions.

(** What a user writes on a plain command line: a name, a switch, or a
    format, glued to its option with an equals sign or as the string after
    it. An option is written in full or abbreviated. *)
Inductive token :=
| Positional (s : pystr)
| Switch (written : pystr)
| FormatGlued (written f : pystr)
| FormatNext (written f : pystr).

(** The strings of a token in [sys.argv]. *)
Definition spell (t : token) : list pystr :=
  match t with
  | Positional s => [s]
  | Switch written => [written]
  | FormatGlued written f => [written ++ chr "=" :: f]
  | FormatNext written f => [written; f]
  end.

Definition writes_format (written : pystr) : bool :=
  match written_option written with
  | Some (_, format_action) => true
  | _ => false
  end.

(** A positional, and a format in a string of its own, must not look like
    an option: it does not start with a dash, or it is a negative number.
    A switch stands for one of the three [store_true] actions; a glued
    format is any string but ['--']. *)
Definition well_spelled (t : token) : bool :=
  match t with
  | Positional s => looks_positional s
  | Switch written =>
      match written_option written with
      | Some (_, (uppercase_action | summary_action | version_action)) => true
      | _ => false
      end
  | FormatGlued written f =>
      writes_format written && negb (str_eqb f (str "--"))
  | FormatNext written f =>
      writes_format written && looks_positional f
  end.

(** What a switch or a format stores. *)
Definition store (ns : Namespace) (t : token) : Namespace :=
  match t with
  | Positional _ => ns
  | Switch written =>
      match written_option written with
      | Some (_, uppercase_action) =>
          {| name := name ns; format := format ns; uppercase := true;
             summary := summary ns; version := version ns |}
      | Some (_, summary_action) =>
          {| name := name ns; format := format ns; uppercase := uppercase ns;
             summary := true; version := version ns |}
      | Some (_, version_action) =>
          {| name := name ns; format := format ns; uppercase := uppercase ns;
             summary := summary ns; version := true |}
      | _ => ns
      end
  | FormatGlued _ f | FormatNext _ f =>
      {| name := name ns; format := VStr f; uppercase := uppercase ns;
         summary := summary ns; version := version ns |}
  end.

Definition with_name (n : pystr) (ns : Namespace) : Namespace :=
  {| name := VStr n; format := format ns; uppercase := uppercase ns;
     summary := summary ns; version := version ns |}.

(** The positionals of a command line, in order. *)
Definition names (tokens : list token) : list pystr :=
  flat_map (fun t => match t with Positional s => [s] | _ => [] end) tokens.

(** The item [classify] makes of a written option. *)
Definition option_item (written : pystr) (explicit_arg : option pystr)
    (arg_string : pystr) : item :=
  {| pattern := pO; arg_string := arg_string;
     option_tuple_of :=
       match written_option written with
       | Some (option_string, action) =>
           Some (Some action, option_string, explicit_arg)
       | None => None
       end |}.

(** The items [classify] makes of a token. *)
Definition items_of (t : token) : list item :=
  match t with
  | Positional s =>
      [{| pattern := pA; arg_string := s; option_tuple_of := None |}]
  | Switch written => [option_item written None written]
  | FormatGlued written f =>
      [option_item written (Some f) (written ++ chr "=" :: f)]
  | FormatNext written f =>
      [option_item written None written;
       {| pattern := pA; arg_string := f; option_tuple_of := None |}]
  end.

Lemma classify_cons t x rest w :
  str_eqb t (str "--") = false ->
  _parse_optional t = ret x ->
  classify (t :: rest) w =
  match classify rest w with
  | Ok (items, w') =>
      Ok ({| pattern := (match x with None => pA | Some _ => pO end);
             arg_string := t; option_tuple_of := x |} :: items, w')
  | Raise e => Raise e
  end.
Proof.
  intros Hdash Hx. cbn [classify]. rewrite Hdash, Hx. unfold bindM. cbn [ret].
  destruct (classify rest w) as [[items w']|e]; reflexivity.
Qed.

(** The strings an option string begins with, one after the other. *)
Ltac spell_out w H :=
  repeat (destruct w as [|?c w];
          [|cbn [Str.startswith] in H;
            first [discriminate H
                  |apply andb_prop in H as [?Hc H];
                   apply N.eqb_eq in Hc; subst]]).

Lemma parse_optional_written written option_string action :
  written_option written = Some (option_string, action) ->
  In (option_string, action) _option_string_actions /\
  str_eqb written (str "--") = false /\
  _parse_optional written = ret (Some (Some action, option_string, None)) /\
  forall v, str_eqb (written ++ chr "=" :: v) (str "--") = false /\
            _parse_optional (written ++ chr "=" :: v) =
            ret (Some (Some action, option_string, Some v)).
Proof.
  unfold written_option. intros H.
  apply find_some in H as [Hin H]. cbn [fst] in H.
  split; [exact Hin|].
  unfold stands_for in H. apply orb_prop in H as [H|H].
  - apply str_eqb_eq in H. subst written.
    cbn in Hin.
    repeat destruct Hin as [Hin|Hin]; try contradiction;
      injection Hin as <- <-; repeat split.
  - apply andb_prop in H as [Hlen H]. cbn in Hin.
    repeat destruct Hin as [Hin|Hin]; try contradiction;
      injection Hin as <- <-;
      spell_out written H; try discriminate Hlen; repeat split.
Qed.

Lemma classify_spelled_then tokens tail w :
  forallb well_spelled tokens = true ->
  classify (flat_map spell tokens ++ tail) w =
  match classify tail w with
  | Ok (items, w') => Ok (flat_map items_of tokens ++ items, w')
  | Raise e => Raise e
  end.
Proof.
  induction tokens as [|t tokens IH]; intros H.
  - cbn [flat_map app]. destruct (classify tail w) as [[items w']|e]; reflexivity.
  - cbn [forallb] in H. apply andb_prop in H as [Ht H]. specialize (IH H).
    cbn [flat_map]. rewrite <- !app_assoc.
    destruct t as [s|s|s f|s f]; cbn [well_spelled] in Ht;
      cbn [spell items_of app]; unfold option_item, writes_format in *.
    + rewrite (classify_cons s None) by (apply parse_optional_positional, Ht).
      rewrite IH. destruct (classify tail w) as [[items w']|e]; reflexivity.
    + destruct (written_option s) as [[o a]|] eqn:Ea; [|discriminate].
      destruct (parse_optional_written s o a Ea) as (_ & Hd & Hp & _).
      rewrite (classify_cons s _ _ _ Hd Hp). rewrite IH.
      destruct (classify tail w) as [[items w']|e]; reflexivity.
    + destruct (written_option s) as [[o a]|] eqn:Ea; [|discriminate].
      destruct (parse_optional_written s o a Ea) as (_ & _ & _ & Hv).
      destruct (Hv f) as [Hd Hp].
      rewrite (classify_cons _ _ _ _ Hd Hp). rewrite IH.
      destruct (classify tail w) as [[items w']|e]; reflexivity.
    + destruct (written_option s) as [[o a]|] eqn:Ea; [|discriminate].
      destruct (parse_optional_written s o a Ea) as (_ & Hd & Hp & _).
      apply andb_prop in Ht as [_ Ht].
      rewrite (classify_cons s _ _ _ Hd Hp).
      rewrite (classify_cons f None) by (apply parse_optional_positional, Ht).
      rewrite IH. destruct (classify tail w) as [[items w']|e]; reflexivity.
Qed.

Lemma classify_spelled tokens w :
  forallb well_spelled tokens = true ->
  classify (flat_map spell tokens) w = Ok (flat_map items_of tokens, w).
Proof.
  intros H. rewrite <- (app_nil_r (flat_map spell tokens)).
  rewrite classify_spelled_then by exact H. cbn [classify ret].
  rewrite app_nil_r. reflexivity.
Qed.

(** What the parser has stored once it is past a token: the first
    positional is the name, the others are left over. *)
Definition take (st : state) (t : token) : state :=
  match t with
  | Positional s =>
      match positionals st with
      | [] => {| namespace := namespace st; positionals := [];
                 extras := extras st ++ [s] |}
      | _ => {| namespace := with_name s (namespace st); positionals := [];
                extras := extras st |}
      end
  | _ => {| namespace := store (namespace st) t;
            positionals := positionals st; extras := extras st |}
  end.

Definition items_of_all (tokens : list token) : list item :=
  flat_map items_of tokens.

Lemma no_leading_dash tokens tail :
  (tokens = [] -> count_leading pDash (arg_strings_pattern tail) = O) ->
  count_leading pDash (arg_strings_pattern (items_of_all tokens ++ tail)) = O.
Proof. destruct tokens as [|[] tokens]; intros H; auto. Qed.

Lemma remove_dashdash_one s :
  str_eqb s (str "--") = false -> remove_dashdash [s] = [s].
Proof. intros H. cbn [remove_dashdash]. rewrite H. reflexivity. Qed.

(** The name takes the first positional. *)
Lemma consume_positionals_name s items ns ex w :
  looks_positional s = true ->
  count_leading pDash (arg_strings_pattern items) = O ->
  consume_positionals
    ({| pattern := pA; arg_string := s; option_tuple_of := None |} :: items)
    {| namespace := ns; positionals := [name_action]; extras := ex |} w =
  Ok ({| namespace := with_name s ns; positionals := []; extras := ex |},
      1%nat, w).
Proof.
  intros Hs Hdash. unfold consume_positionals.
  cbn [positionals namespace extras arg_strings_pattern map pattern].
  change (map pattern items) with (arg_strings_pattern items).
  unfold _match_arguments_partial.
  cbn [length match_slices firstn map _get_nargs_pattern nargs option_strings
       re_match_groups re_match count_leading pattern_char_eqb skipn].
  rewrite Hdash.
  cbn [skipn option_map re_match Nat.add length take_positionals firstn map
       arg_string].
  unfold bindM. cbn [take_action]. unfold _get_values.
  rewrite remove_dashdash_one by (apply positional_not_dashdash; exact Hs).
  reflexivity.
Qed.

(** With the name taken, no positional takes anything. *)
Lemma consume_positionals_none items ns ex w :
  consume_positionals items
    {| namespace := ns; positionals := []; extras := ex |} w =
  Ok ({| namespace := ns; positionals := []; extras := ex |}, O, w).
Proof. reflexivity. Qed.

Lemma parse_items_positional s items st w :
  looks_positional s = true ->
  (positionals st = [] \/ positionals st = [name_action]) ->
  count_leading pDash (arg_strings_pattern items) = O ->
  parse_items (items_of (Positional s) ++ items) st w =
  parse_items items (take st (Positional s)) w.
Proof.
  intros Hs Hpos Hdash. destruct st as [ns pos ex]. cbn [positionals] in Hpos.
  cbn [items_of app].
  set (it := {| pattern := pA; arg_string := s; option_tuple_of := None |}).
  cbn [take positionals namespace extras].
  destruct (existsb is_option items) eqn:Hopt.
  - rewrite parse_items_turn by exact Hopt.
    unfold parse_turn. cbn [until_option]. change (is_option it) with false.
    cbv iota. unfold bindM.
    destruct Hpos as [->| ->].
    + rewrite consume_positionals_none. cbn [namespace positionals extras].
      cbn [length skipn].
      destruct (skipn_until_option items Hopt) as (o & following & Hskip & Ho).
      rewrite Hskip.
      rewrite (parse_items_turn items) by exact Hopt.
      unfold parse_turn, bindM.
      destruct (until_option items) as [|b before] eqn:Eb.
      * cbn [ret length skipn namespace positionals extras map app] in *.
        rewrite Hskip. rewrite app_nil_r. reflexivity.
      * rewrite consume_positionals_none.
        cbn [namespace positionals extras]. rewrite Hskip.
        cbn [map]. rewrite <- app_assoc. reflexivity.
    + unfold it. rewrite consume_positionals_name by assumption.
      reflexivity.
  - rewrite !parse_items_last; [|exact Hopt|cbn [existsb]; exact Hopt].
    unfold bindM. destruct Hpos as [->| ->].
    + rewrite !consume_positionals_none. cbn [ret namespace extras skipn map].
      rewrite <- app_assoc. reflexivity.
    + unfold it. rewrite consume_positionals_name by assumption.
      rewrite consume_positionals_none. reflexivity.
Qed.

(** An option at the head of what is unread is consumed in one turn. *)
Lemma parse_items_option it items st w :
  is_option it = true ->
  parse_items (it :: items) st w =
  match consume_optional it items st w with
  | Ok (st', unread', w') => parse_items unread' st' w'
  | Raise e => Raise e
  end.
Proof.
  intros Hit. rewrite parse_items_turn by (cbn [existsb]; rewrite Hit; reflexivity).
  unfold parse_turn. cbn [until_option]. rewrite Hit. unfold bindM.
  cbn [ret length skipn map]. rewrite app_nil_r.
  destruct st as [ns pos ex]. reflexivity.
Qed.

Lemma parse_items_switch written items st w :
  well_spelled (Switch written) = true ->
  parse_items (items_of (Switch written) ++ items) st w =
  parse_items items (take st (Switch written)) w.
Proof.
  intros Hs. cbn [items_of app].
  rewrite parse_items_option by reflexivity.
  unfold consume_optional, take, store, option_item.
  cbn [option_tuple_of well_spelled] in *.
  destruct (written_option written) as [[o []]|]; try discriminate;
    reflexivity.
Qed.

Lemma parse_items_glued written f items st w :
  well_spelled (FormatGlued written f) = true ->
  parse_items (items_of (FormatGlued written f) ++ items) st w =
  parse_items items (take st (FormatGlued written f)) w.
Proof.
  cbn [well_spelled]. unfold writes_format. intros Hf.
  apply andb_prop in Hf as [Hw Hf]. apply negb_true_iff in Hf.
  cbn [items_of app].
  rewrite parse_items_option by reflexivity.
  unfold consume_optional, take, store, option_item. cbn [option_tuple_of].
  destruct (written_option written) as [[o []]|]; try discriminate.
  assert (Hm : match_explicit items format_action o f =
               Ok ([(format_action, [f])], O))
    by (destruct f; reflexivity).
  rewrite Hm. unfold bindM. cbn [lift ret take_actions take_action].
  unfold _get_values. rewrite remove_dashdash_one by exact Hf. reflexivity.
Qed.

Lemma parse_items_next written f items st w :
  well_spelled (FormatNext written f) = true ->
  parse_items (items_of (FormatNext written f) ++ items) st w =
  parse_items items (take st (FormatNext written f)) w.
Proof.
  cbn [well_spelled]. unfold writes_format. intros Hf.
  apply andb_prop in Hf as [Hw Hf].
  cbn [items_of app].
  rewrite parse_items_option by reflexivity.
  unfold consume_optional, take, store, option_item. cbn [option_tuple_of].
  destruct (written_option written) as [[o []]|]; try discriminate.
  assert (Hm : match_following format_action
                 ({| pattern := pA; arg_string := f; option_tuple_of := None |}
                  :: items) = Ok ([(format_action, [f])], 1%nat))
    by reflexivity.
  rewrite Hm. unfold bindM. cbn [lift ret take_actions take_action skipn].
  unfold _get_values.
  rewrite remove_dashdash_one by (apply positional_not_dashdash; exact Hf).
  reflexivity.
Qed.

(** How the parser ends: a name no positional gave is the default. *)
Definition finish (st : state) : Namespace * list pystr :=
  (match positionals st with
   | [] => namespace st
   | _ => {| name := name defaults; format := format (namespace st);
             uppercase := uppercase (namespace st);
             summary := summary (namespace st);
             version := version (namespace st) |}
   end, extras st).

Lemma take_positionals_state st t :
  (positionals st = [] \/ positionals st = [name_action]) ->
  positionals (take st t) = [] \/ positionals (take st t) = [name_action].
Proof.
  intros H. destruct t; cbn [take positionals]; auto.
  destruct (positionals st); auto.
Qed.

(** The tokens of a plain command line are consumed one after the other,
    whatever follows them, unless a ['--'] comes right after a name. *)
Lemma parse_items_tokens tokens tail st w :
  forallb well_spelled tokens = true ->
  (positionals st = [] \/ positionals st = [name_action]) ->
  (names tokens <> [] -> count_leading pDash (arg_strings_pattern tail) = O) ->
  parse_items (items_of_all tokens ++ tail) st w =
  parse_items tail (fold_left take tokens st) w.
Proof.
  revert st. induction tokens as [|t tokens IH]; intros st H Hpos Htail;
    [reflexivity|].
  cbn [forallb] in H. apply andb_prop in H as [Ht H]. cbn [fold_left].
  unfold items_of_all. cbn [flat_map]. rewrite <- app_assoc.
  fold (items_of_all tokens).
  rewrite <- (IH (take st t) H (take_positionals_state st t Hpos)).
  - destruct t as [s|s|s f|s f].
    + cbn [well_spelled] in Ht. apply parse_items_positional; [|exact Hpos|].
      * exact Ht.
      * apply no_leading_dash. intros _. apply Htail. discriminate.
    + apply parse_items_switch. exact Ht.
    + apply parse_items_glued. exact Ht.
    + apply parse_items_next. exact Ht.
  - intros Hn. apply Htail. destruct t; cbn [names flat_map app] in *;
      (assumption || discriminate).
Qed.

Lemma parse_items_nil st w :
  (positionals st = [] \/ positionals st = [name_action]) ->
  parse_items [] st w = Ok (finish st, w).
Proof.
  intros Hpos. rewrite parse_items_last by reflexivity.
  destruct st as [ns pos ex].
  cbn [positionals] in Hpos. destruct Hpos as [->| ->]; unfold finish; cbn;
    rewrite app_nil_r; reflexivity.
Qed.

(** The formats of a command line, in order. *)
Definition formats (tokens : list token) : list pystr :=
  flat_map (fun t => match t with
                     | FormatGlued _ f | FormatNext _ f => [f]
                     | _ => []
                     end) tokens.

(** A switch of the action. *)
Definition switches (action : Action) (t : token) : bool :=
  match t with
  | Switch written =>
      match written_option written, action with
      | Some (_, uppercase_action), uppercase_action
      | Some (_, summary_action), summary_action
      | Some (_, version_action), version_action => true
      | _, _ => false
      end
  | _ => false
  end.

(** What a plain command line asks for: the first positional is the name,
    the last format is the format, and a flag is set by a switch anywhere. *)
Definition namespace_of (tokens : list token) : Namespace :=
  {| name := VStr (hd (str "Friend") (names tokens));
     format := VStr (last (formats tokens) (str "Hello, {name}!"));
     uppercase := existsb (switches uppercase_action) tokens;
     summary := existsb (switches summary_action) tokens;
     version := existsb (switches version_action) tokens |}.

Lemma last_cons {A} (a : A) l d : last (a :: l) d = last l a.
Proof.
  revert a d. induction l as [|b l IH]; intros a d; [reflexivity|].
  change (last (a :: b :: l) d) with (last (b :: l) d).
  rewrite !IH. reflexivity.
Qed.

Lemma fold_store tokens n f u s v :
  fold_left store tokens
    {| name := n; format := VStr f; uppercase := u; summary := s;
       version := v |} =
  {| name := n;
     format := VStr (last (formats tokens) f);
     uppercase := u || existsb (switches uppercase_action) tokens;
     summary := s || existsb (switches summary_action) tokens;
     version := v || existsb (switches version_action) tokens |}.
Proof.
  revert f u s v. induction tokens as [|t tokens IH]; intros f u s v.
  - cbn. rewrite !orb_false_r. reflexivity.
  - cbn [fold_left]. destruct t as [x|x|x y|x y]; cbn [store].
    + rewrite IH. reflexivity.
    + cbn [existsb switches formats flat_map app].
      destruct (written_option x) as [[o []]|];
        cbn [name format uppercase summary version]; rewrite IH;
        cbn [orb]; rewrite ?orb_true_r; reflexivity.
    + cbn [name format uppercase summary version]. rewrite IH.
      cbn [formats flat_map app]. rewrite last_cons. reflexivity.
    + cbn [name format uppercase summary version]. rewrite IH.
      cbn [formats flat_map app]. rewrite last_cons. reflexivity.
Qed.

Lemma fold_take_taken tokens ns ex :
  fold_left take tokens {| namespace := ns; positionals := []; extras := ex |} =
  {| namespace := fold_left store tokens ns; positionals := [];
     extras := ex ++ names tokens |}.
Proof.
  revert ns ex. induction tokens as [|t tokens IH]; intros ns ex.
  - cbn. rewrite app_nil_r. reflexivity.
  - cbn [fold_left]. destruct t; cbn [take positionals namespace extras];
      rewrite IH; cbn [names flat_map app]; rewrite <- ?app_assoc; reflexivity.
Qed.

Lemma store_with_name n tokens ns :
  fold_left store tokens (with_name n ns) =
  with_name n (fold_left store tokens ns).
Proof.
  revert ns. induction tokens as [|t tokens IH]; intros ns; [reflexivity|].
  cbn [fold_left]. rewrite <- IH. f_equal.
  destruct t as [x|x|x y|x y]; cbn [store]; try reflexivity.
  destruct (written_option x) as [[o []]|]; reflexivity.
Qed.

Lemma fold_take_free tokens ns ex :
  fold_left take tokens
    {| namespace := ns; positionals := [name_action]; extras := ex |} =
  match names tokens with
  | [] => {| namespace := fold_left store tokens ns;
             positionals := [name_action]; extras := ex |}
  | n :: extra =>
      {| namespace := with_name n (fold_left store tokens ns);
         positionals := []; extras := ex ++ extra |}
  end.
Proof.
  revert ns. induction tokens as [|t tokens IH]; intros ns; [reflexivity|].
  cbn [fold_left]. destruct t; cbn [take positionals namespace extras];
    try (rewrite IH; reflexivity).
  rewrite fold_take_taken. cbn [names flat_map app fold_left store].
  rewrite store_with_name. reflexivity.
Qed.

(** [parse_args] on a plain command line. *)
Lemma parse_args_plain tokens w :
  forallb well_spelled tokens = true ->
  parse_args (flat_map spell tokens) w =
  match names tokens with
  | _ :: n :: extra => error (unrecognized_arguments (n :: extra)) w
  | _ => Ok (namespace_of tokens, w)
  end.
Proof.
  intros H. unfold parse_args, parse_known_args, bindM.
  rewrite parse_known_args_items. unfold bindM.
  rewrite classify_spelled by exact H.
  fold (items_of_all tokens). rewrite <- (app_nil_r (items_of_all tokens)).
  rewrite parse_items_tokens by (auto; right; reflexivity).
  rewrite fold_take_free.
  rewrite parse_items_nil
    by (destruct (names tokens); [right|left]; reflexivity). unfold defaults. rewrite fold_store.
  unfold namespace_of, finish.
  destruct (names tokens) as [|n [|m extra]]; reflexivity.
Qed.
End PlainCommandLines.

(** ** What the script makes of the namespace *)

(** The part of [main] after [parse_args], as the outcome of the run. *)
Definition respond (rt : Format.Runtime) (args : Argparse.Namespace)
    : Hello.Outcome :=
  if Argparse.summary args then
    printed (str "Displays a customizable greeting message (Python version)")
  else if Argparse.version args then
    printed (str "hello - rcForge Utility v0.4.1")
  else
    match Hello.format_greeting rt (Argparse.format args) (Argparse.name args)
    with
    | Ok greeting =>
        printed (if Argparse.uppercase args then Str.upper greeting
                 else greeting)
    | Raise e => crashed e
    end.

Lemma run_respond rt argv args w :
  Argparse.parse_args argv Hello.startup = Ok (args, w) ->
  Hello.run rt argv = respond rt args.
Proof. intros H. apply (run_parsed rt argv args w H). Qed.

Lemma run_rejected rt argv message :
  Argparse.parse_args argv Hello.startup =
    Argparse.error message Hello.startup ->
  Hello.run rt argv = rejected message.
Proof.
  intros H. unfold Hello.run, Hello.main, bindM. rewrite H, error_eq.
  reflexivity.
Qed.



(** X2: a plain command line with more than one name is rejected by the
    parser, whatever its switches and formats are: nothing is printed, the
    usage error names every name after the first, and the status is 2. *)
Theorem second_name_is_rejected rt tokens n m extra :
  forallb well_spelled tokens = true ->
  names tokens = n :: m :: extra ->
  Hello.run rt (flat_map spell tokens) =
  rejected (unrecognized_arguments (m :: extra)).
Proof.
  intros H Hn. apply run_rejected. rewrite parse_args_plain by exact H.
  rewrite Hn. reflexivity.
Qed.

Lemma second_name_is_rejected_witness :
  Hello.run no_answers
    [str "Ada"; str "--summary"; str "Grace"; str "--format=x"; str "Edsger"] =
  rejected (unrecognized_arguments [str "Grace"; str "Edsger"]).
Proof.
  exact (second_name_is_rejected no_answers
           [Positional (str "Ada"); Switch (str "--summary");
            Positional (str "Grace"); FormatGlued (str "--format") (str "x");
            Positional (str "Edsger")]
           (str "Ada") (str "Grace") [str "Edsger"] eq_refl eq_refl).
Defined.

Lemma run_same_parse rt argv argv' :
  Argparse.parse_args argv Hello.startup =
    Argparse.parse_args argv' Hello.startup ->
  Hello.run rt argv = Hello.run rt argv'.
Proof. intros H. unfold Hello.run, Hello.main, bindM. rewrite H. reflexivity. Qed.

Lemma existsb_permutation {A} (f : A -> bool) l l' :
  Permutation l l' -> existsb f l = existsb f l'.
Proof.
  intros H. induction H as [|x l l' H IH|x y l|l l' l'' H1 IH1 H2 IH2];
    cbn [existsb]; try congruence.
  destruct (f x), (f y); reflexivity.
Qed.

Lemma forallb_permutation {A} (f : A -> bool) l l' :
  Permutation l l' -> forallb f l = forallb f l'.
Proof.
  intros H. induction H as [|x l l' H IH|x y l|l l' l'' H1 IH1 H2 IH2];
    cbn [forallb]; try congruence.
  destruct (f x), (f y); reflexivity.
Qed.

(** X3: the tokens of a plain command line can be written in any order
    that keeps the names in their order and the formats in theirs: the
    run is the same. In particular a switch can stand anywhere. *)
Theorem order_of_tokens_is_free rt tokens tokens' :
  forallb well_spelled tokens = true ->
  Permutation tokens tokens' ->
  names tokens = names tokens' ->
  formats tokens = formats tokens' ->
  Hello.run rt (flat_map spell tokens) = Hello.run rt (flat_map spell tokens').
Proof.
  intros H Hperm Hnames Hformats. apply run_same_parse.
  assert (H' : forallb well_spelled tokens' = true)
    by (rewrite <- (forallb_permutation _ _ _ Hperm); exact H).
  rewrite !parse_args_plain by assumption.
  unfold namespace_of.
  rewrite <- Hnames, <- Hformats,
    <- !(existsb_permutation _ _ _ Hperm). reflexivity.
Qed.

Lemma order_of_tokens_is_free_witness :
  Hello.run no_answers [str "Ada"; str "--format"; str "{name}?"; str "-u"] =
  Hello.run no_answers [str "-u"; str "--format"; str "{name}?"; str "Ada"].
Proof.
  refine (order_of_tokens_is_free no_answers
            [Positional (str "Ada"); FormatNext (str "--format") (str "{name}?");
             Switch (str "-u")]
            [Switch (str "-u"); FormatNext (str "--format") (str "{name}?");
             Positional (str "Ada")] eq_refl _ eq_refl eq_refl).
  apply Permutation_rev.
Defined.

Lemma last_app_nonempty {A} (l1 l2 : list A) d :
  l2 <> [] -> last (l1 ++ l2) d = last l2 d.
Proof.
  intros H. induction l1 as [|a l1 IH]; [reflexivity|].
  cbn [app]. rewrite <- IH.
  destruct (l1 ++ l2) eqn:E; [|reflexivity].
  apply app_eq_nil in E as [_ E]. contradiction.
Qed.

(** X4: a format that is followed by another format has no effect, even
    one that [str.format] would refuse: only the last format of a plain
    command line is looked at. *)
Theorem earlier_format_is_ignored rt before t after :
  forallb well_spelled (before ++ t :: after) = true ->
  (exists written f, t = FormatGlued written f \/ t = FormatNext written f) ->
  formats after <> [] ->
  Hello.run rt (flat_map spell (before ++ t :: after)) =
  Hello.run rt (flat_map spell (before ++ after)).
Proof.
  intros H (written & f & Ht) Hafter. apply run_same_parse.
  assert (H' : forallb well_spelled (before ++ after) = true).
  { rewrite forallb_app in *. cbn [forallb] in H.
    apply andb_prop in H as [Hb H]. apply andb_prop in H as [_ Ha].
    rewrite Hb, Ha. reflexivity. }
  rewrite !parse_args_plain by assumption.
  assert (Hnames : names (before ++ t :: after) = names (before ++ after)).
  { unfold names. rewrite !flat_map_app. cbn [flat_map].
    destruct Ht as [-> | ->]; reflexivity. }
  assert (Hformats : forall d,
            last (formats (before ++ t :: after)) d =
            last (formats (before ++ after)) d).
  { intros d. unfold formats. rewrite !flat_map_app. cbn [flat_map].
    fold (formats after).
    rewrite (last_app_nonempty _ (formats after)) by exact Hafter.
    rewrite (last_app_nonempty _ (_ ++ formats after)).
    - apply last_app_nonempty. exact Hafter.
    - intros E. apply app_eq_nil in E as [_ E]. contradiction. }
  assert (Hswitches : forall a,
            existsb (switches a) (before ++ t :: after) =
            existsb (switches a) (before ++ after)).
  { intros a. rewrite !existsb_app. cbn [existsb].
    destruct Ht as [-> | ->]; reflexivity. }
  unfold namespace_of. rewrite Hnames, Hformats, !Hswitches. reflexivity.
Qed.

Lemma earlier_format_is_ignored_witness :
  Hello.run no_answers
    [str "Ada"; str "--format={oops"; str "--format"; str "Hi {name}"] =
  Hello.run no_answers [str "Ada"; str "--format"; str "Hi {name}"].
Proof.
  refine (earlier_format_is_ignored no_answers
            [Positional (str "Ada")] (FormatGlued (str "--format") (str "{oops"))
            [FormatNext (str "--format") (str "Hi {name}")] eq_refl
            (ex_intro _ (str "--format")
               (ex_intro _ (str "{oops") (or_introl eq_refl))) _).
  discriminate.
Defined.



(** ** The ways a run can end *)

(** X6: whatever the command line and the interpreter are, a run ends in
    one of four ways: one text printed and status 0; an exception reported
    on standard error, nothing printed and status 1; the help message
    printed and status 0; a usage error on standard error, nothing printed
    and status 2. So the status is 0, 1 or 2, and the two streams are never
    both written to. *)
Theorem run_ends_in_one_of_four_ways rt argv :
  (exists text, Hello.run rt argv = printed text) \/
  (exists e, Hello.run rt argv = crashed e) \/
  Hello.run rt argv = helped \/
  (exists message, Hello.run rt argv = rejected message).
Proof.
  destruct (Argparse.parse_args argv Hello.startup) as [[args w]|r] eqn:Hparse.
  - rewrite (run_respond rt argv args w Hparse). unfold respond.
    destruct (Argparse.summary args); [eauto|].
    destruct (Argparse.version args); [eauto|].
    destruct (Hello.format_greeting rt _ _); eauto.
  - destruct (run_not_parsed rt argv r Hparse) as [H|H]; auto.
Qed.

(** ** Upper case, for every character *)

Section UpperCase.
Import Unicode.

Lemma find_none_run c :
  find (fun e => fst e =? c) upper_special = None ->
  find (in_run c) upper_runs = None ->
  _PyUnicode_ToUpperFull c = [c].
Proof. intros H1 H2. unfold _PyUnicode_ToUpperFull. rewrite H1, H2. reflexivity. Qed.

(** The members of a run. *)
Definition run_members (r : N * N * N * N) : list N :=
  let '(first, last, step, _) := r in
  map (fun k => first + N.of_nat k * step)
    (seq 0 (S (N.to_nat ((last - first) / step)))).

Definition run_target (r : N * N * N * N) (c : N) : N :=
  let '(first, _, _, target) := r in target + (c - first).

Lemma in_run_member c r :
  (let '(_, _, step, _) := r in 0 <? step) = true ->
  in_run c r = true -> In c (run_members r).
Proof.
  destruct r as [[[first last] step] target]. unfold in_run, run_members.
  intros Hstep H. apply N.ltb_lt in Hstep.
  apply andb_prop in H as [H Hmod]. apply andb_prop in H as [Hfirst Hlast].
  apply N.leb_le in Hfirst, Hlast. apply N.eqb_eq in Hmod.
  apply in_map_iff. exists (N.to_nat ((c - first) / step)). split.
  - rewrite N2Nat.id.
    pose proof (N.div_mod (c - first) step ltac:(lia)) as Hdiv.
    rewrite Hmod in Hdiv. rewrite (N.mul_comm _ step). lia.
  - apply in_seq. split; [apply Nat.le_0_l|]. cbn [Nat.add].
    assert (Hle : (c - first) / step <= (last - first) / step)
      by (apply N.Div0.div_le_mono; lia).
    revert Hle. generalize ((c - first) / step), ((last - first) / step).
    intros q q' Hle. lia.
Qed.

(** Every character of an upper-case mapping is its own upper case. *)
Definition fixed (d : N) : bool :=
  match _PyUnicode_ToUpperFull d with
  | [d'] => d' =? d
  | _ => false
  end.

Lemma fixed_spec d : fixed d = true -> _PyUnicode_ToUpperFull d = [d].
Proof.
  unfold fixed. destruct (_PyUnicode_ToUpperFull d) as [|d' [|]];
    try discriminate.
  intros H. apply N.eqb_eq in H. subst. reflexivity.
Qed.

Lemma upper_special_fixed :
  forallb (fun e => forallb fixed (snd e)) upper_special = true.
Proof. vm_compute. reflexivity. Qed.

Lemma upper_runs_fixed :
  forallb (fun r =>
    (let '(_, _, step, _) := r in 0 <? step) &&
    forallb (fun c => fixed (run_target r c)) (run_members r))
    upper_runs = true.
Proof. vm_compute. reflexivity. Qed.

Lemma upper_char_fixed c d :
  In d (_PyUnicode_ToUpperFull c) -> _PyUnicode_ToUpperFull d = [d].
Proof.
  unfold _PyUnicode_ToUpperFull at 1.
  destruct (find (fun e => fst e =? c) upper_special) as [[k mapped]|] eqn:Es.
  - intros Hin. apply find_some in Es as [Es _].
    pose proof upper_special_fixed as H. rewrite forallb_forall in H.
    specialize (H _ Es). cbn [snd] in H. rewrite forallb_forall in H.
    apply fixed_spec. auto.
  - destruct (find (in_run c) upper_runs) as [r|] eqn:Er.
    + apply find_some in Er as [Er Hc].
      pose proof upper_runs_fixed as H. rewrite forallb_forall in H.
      specialize (H _ Er). apply andb_prop in H as [Hstep H].
      rewrite forallb_forall in H.
      specialize (H c (in_run_member c r Hstep Hc)).
      destruct r as [[[first last] step] target]. cbn [run_target] in H.
      intros [<-|[]]. apply fixed_spec. exact H.
    + intros [<-|[]]. apply find_none_run; assumption.
Qed.

Lemma upper_fixed l :
  (forall d, In d l -> _PyUnicode_ToUpperFull d = [d]) -> Str.upper l = l.
Proof.
  unfold Str.upper. induction l as [|d l IH]; intros H; [reflexivity|].
  cbn [flat_map]. rewrite (H d) by (left; reflexivity).
  rewrite IH by (intros; apply H; right; assumption). reflexivity.
Qed.

Lemma upper_special_lengths :
  forallb (fun e => (1 <=? length (snd e))%nat && (length (snd e) <=? 3)%nat)
    upper_special = true.
Proof. vm_compute. reflexivity. Qed.

Lemma upper_char_length c :
  (1 <= length (_PyUnicode_ToUpperFull c) <= 3)%nat.
Proof.
  unfold _PyUnicode_ToUpperFull.
  destruct (find (fun e => fst e =? c) upper_special) as [[k mapped]|] eqn:Es.
  - apply find_some in Es as [Es _].
    pose proof upper_special_lengths as H. rewrite forallb_forall in H.
    specialize (H _ Es). cbn [snd] in H. apply andb_prop in H as [H1 H3].
    apply Nat.leb_le in H1, H3. lia.
  - destruct (find (in_run c) upper_runs) as [[[[first last] step] target]|];
      cbn; lia.
Qed.
End UpperCase.

(** X7: upper-casing a text that [str.upper] returned changes nothing:
    every character of an upper-cased greeting is its own upper case, so
    that none of them is an ASCII lower-case letter. *)
Theorem upper_is_idempotent s :
  Str.upper (Str.upper s) = Str.upper s /\
  forall c, In c (Str.upper s) -> ascii_upper c = c.
Proof.
  assert (Hfixed : forall d, In d (Str.upper s) ->
                     Unicode._PyUnicode_ToUpperFull d = [d]).
  { unfold Str.upper. intros d Hd. apply in_flat_map in Hd as (c & _ & Hd).
    eapply upper_char_fixed. exact Hd. }
  split; [apply upper_fixed; exact Hfixed|].
  intros c Hc. specialize (Hfixed c Hc).
  destruct (is_ascii c) eqn:Hascii.
  - rewrite (upper_ascii_char c Hascii) in Hfixed. congruence.
  - unfold ascii_upper, is_ascii in *. apply N.ltb_ge in Hascii.
    destruct (c <=? chr "z") eqn:Hz; [|rewrite andb_false_r; reflexivity].
    apply N.leb_le in Hz. change (chr "z") with 122 in Hz. lia.
Qed.

(** X8: [str.upper] never shortens a text and at most triples its
    length. *)
Theorem upper_length_bounds s :
  (length s <= length (Str.upper s) <= 3 * length s)%nat.
Proof.
  unfold Str.upper. induction s as [|c s IH]; cbn [flat_map length]; [lia|].
  rewrite length_app. pose proof (upper_char_length c). lia.
Qed.

(** ** When the help message is shown *)

Section NoHelp.
Import Argparse.

(** A string that cannot ask for help: it does not start with a dash, or
    it holds no letter h. *)
Definition no_help_request (t : pystr) : bool :=
  negb (Str.startswith t (str "-") && Str.contains (chr "h") t).

Definition is_help (a : Action) : bool :=
  match a with help_action => true | _ => false end.

(** An option that is not the help option, and cannot become it as a run
    of single-dash flags. *)
Definition calm_tuple (x : option option_tuple) : bool :=
  match x with
  | Some (Some action, _, explicit_arg) =>
      negb (is_help action) &&
      match explicit_arg with
      | Some e => negb (Str.contains (chr "h") e)
      | None => true
      end
  | _ => true
  end.

Definition calm (it : item) : bool := calm_tuple (option_tuple_of it).

(** Code that does not leave with status 0. *)
Definition no_exit_0 {A} (m : M A) : Prop :=
  forall w w', m w <> Raise (SystemExit 0, w').

Lemma no_exit_0_ret {A} (a : A) : no_exit_0 (ret a).
Proof. intros w w'. discriminate. Qed.

Lemma no_exit_0_bind {A B} (m : M A) (k : A -> M B) :
  no_exit_0 m ->
  (forall a w w', m w = Ok (a, w') -> no_exit_0 (k a)) ->
  no_exit_0 (bindM m k).
Proof.
  intros Hm Hk w w'. unfold bindM.
  destruct (m w) as [[a w1]|r] eqn:E.
  - eapply Hk. exact E.
  - intros [= ->]. eapply Hm. exact E.
Qed.

Lemma no_exit_0_error {A} message : no_exit_0 (@error A message).
Proof. intros w w'. rewrite error_eq. discriminate. Qed.

Lemma no_exit_0_lift {A} (r : result A) : no_exit_0 (lift r).
Proof. intros w w'. destruct r; discriminate. Qed.

Lemma no_exit_0_take_action action args ns :
  is_help action = false -> no_exit_0 (take_action action args ns).
Proof.
  destruct action; try discriminate; intros _; apply no_exit_0_ret.
Qed.

Lemma no_exit_0_take_actions tuples ns :
  forallb (fun t => negb (is_help (fst t))) tuples = true ->
  no_exit_0 (take_actions tuples ns).
Proof.
  revert ns. induction tuples as [|[action args] tuples IH]; intros ns H;
    cbn [take_actions]; [apply no_exit_0_ret|].
  cbn [forallb fst] in H. apply andb_prop in H as [Ha Ht].
  apply negb_true_iff in Ha.
  apply no_exit_0_bind; [apply no_exit_0_take_action; exact Ha|]. auto.
Qed.

Lemma get_option_help x :
  get_option x = Some help_action -> x = str "-h" \/ x = str "--help".
Proof.
  intros H. apply get_option_some in H. cbn in H.
  repeat destruct H as [H|H]; try contradiction; try discriminate;
    injection H as <-; auto.
Qed.

Lemma match_following_actions action following tuples n :
  match_following action following = Ok (tuples, n) ->
  is_help action = false ->
  forallb (fun t => negb (is_help (fst t))) tuples = true.
Proof.
  unfold match_following.
  destruct (_match_argument _ _); [|discriminate].
  cbn. intros [= <- _] Ha. cbn. rewrite Ha. reflexivity.
Qed.

Lemma match_explicit_actions following action option_string explicit_arg tuples n :
  match_explicit following action option_string explicit_arg = Ok (tuples, n) ->
  is_help action = false ->
  Str.contains (chr "h") explicit_arg = false ->
  forallb (fun t => negb (is_help (fst t))) tuples = true.
Proof.
  revert action option_string tuples n.
  induction explicit_arg as [|c e IH]; intros action option_string tuples n;
    cbn [match_explicit];
    destruct (_match_argument action [pA]) as [arg_count|]; cbn [bind];
    try discriminate.
  - destruct (arg_count =? 1)%nat; [|discriminate].
    intros [= <- _] Ha _. cbn. rewrite Ha. reflexivity.
  - intros H Haction Hh. cbn [Str.contains existsb] in Hh.
    apply orb_false_elim in Hh as [Hc He].
    destruct ((arg_count =? 0)%nat && _).
    + destruct (get_option _) as [action'|] eqn:Eo; [|discriminate].
      assert (Haction' : is_help action' = false).
      { destruct action'; try reflexivity. exfalso.
        apply get_option_help in Eo.
        destruct option_string as [|o os]; cbn [firstn app] in Eo;
          destruct Eo as [Eo|Eo]; vm_compute in Eo; try discriminate Eo;
          injection Eo as _ ->; vm_compute in Hc; discriminate. }
      destruct (match e with [] => _ | _ => _ end) as [[tuples' m]|] eqn:E;
        [|discriminate].
      cbn in H. injection H as <- _. cbn [forallb fst].
      rewrite Haction. cbn [negb andb].
      destruct e; [eapply match_following_actions | eapply IH]; eauto.
    + destruct (arg_count =? 1)%nat; [|discriminate].
      injection H as <- _. cbn. rewrite Haction. reflexivity.
Qed.

Lemma no_exit_0_consume_optional it following st :
  calm it = true -> no_exit_0 (consume_optional it following st).
Proof.
  unfold calm, calm_tuple, consume_optional.
  destruct (option_tuple_of it) as [[[[action|] option_string] explicit_arg]|];
    try (intros _; apply no_exit_0_ret).
  intros H. apply andb_prop in H as [Ha He]. apply negb_true_iff in Ha.
  assert (Htuples : forall tuples n,
            match explicit_arg with
            | Some e => match_explicit following action option_string e
            | None => match_following action following
            end = Ok (tuples, n) ->
            forallb (fun t => negb (is_help (fst t))) tuples = true).
  { intros tuples n. destruct explicit_arg as [e|].
    - apply negb_true_iff in He. intros E.
      eapply match_explicit_actions; eauto.
    - intros E. eapply match_following_actions; eauto. }
  apply no_exit_0_bind; [apply no_exit_0_lift|]. intros [tuples n] w w' E.
  assert (Ht : forallb (fun t => negb (is_help (fst t))) tuples = true).
  { apply (Htuples tuples n).
    destruct explicit_arg as [e|];
      [destruct (match_explicit following action option_string e)
         as [[tuples0 n0]|]
      |destruct (match_following action following) as [[tuples0 n0]|]];
      cbn in E; try discriminate; unfold ret in E;
      injection E as -> -> _; reflexivity. }
  apply no_exit_0_bind; [apply no_exit_0_take_actions; exact Ht|].
  intros; apply no_exit_0_ret.
Qed.

Lemma no_exit_0_take_positionals actions counts unread ns :
  forallb (fun a => negb (is_help a)) actions = true ->
  no_exit_0 (take_positionals actions counts unread ns).
Proof.
  revert counts unread ns. induction actions as [|a actions IH];
    intros counts unread ns H; cbn [take_positionals]; [apply no_exit_0_ret|].
  destruct counts as [|count counts]; [apply no_exit_0_ret|].
  cbn [forallb] in H. apply andb_prop in H as [Ha Hs]. apply negb_true_iff in Ha.
  apply no_exit_0_bind; [apply no_exit_0_take_action; exact Ha|].
  intros ns' _ _ _.
  apply no_exit_0_bind; [apply IH; exact Hs|]. intros [ns'' n] _ _ _.
  apply no_exit_0_ret.
Qed.

Lemma no_exit_0_consume_positionals unread st :
  forallb (fun a => negb (is_help a)) (positionals st) = true ->
  no_exit_0 (consume_positionals unread st).
Proof.
  intros H. unfold consume_positionals.
  apply no_exit_0_bind; [apply no_exit_0_take_positionals; exact H|].
  intros [ns n] _ _ _. apply no_exit_0_ret.
Qed.

Lemma forallb_skipn {A} (f : A -> bool) n l :
  forallb f l = true -> forallb f (skipn n l) = true.
Proof.
  revert l. induction n as [|n IH]; intros l H; [exact H|].
  destruct l as [|a l]; [reflexivity|]. cbn [forallb] in H.
  apply andb_prop in H as [_ H]. cbn [skipn]. auto.
Qed.

(** What a turn of the loop keeps: the unread options stay calm, and the
    positionals still to be matched do not hold the help action. *)
Definition settled (st : state) (unread : list item) : Prop :=
  forallb calm unread = true /\
  forallb (fun a => negb (is_help a)) (positionals st) = true.

Lemma consume_positionals_positionals unread st w st' n w' :
  consume_positionals unread st w = Ok (st', n, w') ->
  exists k, positionals st' = skipn k (positionals st).
Proof.
  unfold consume_positionals, bindM.
  destruct (take_positionals _ _ _ _ w) as [[[ns1 m] w1]|]; [|discriminate].
  cbn. intros [= <- _ _]. cbn. eauto.
Qed.

Lemma consume_optional_suffix it following st w st' unread' w' :
  consume_optional it following st w = Ok (st', unread', w') ->
  positionals st' = positionals st /\ exists k, unread' = skipn k following.
Proof.
  unfold consume_optional.
  destruct (option_tuple_of it) as [[[[action|] option_string] explicit_arg]|].
  2-3: intros [= <- <- _]; split; [reflexivity|exists O; reflexivity].
  unfold bindM.
  destruct (lift _ w) as [[[tuples n] w1]|]; [|discriminate].
  destruct (take_actions _ _ w1) as [[ns w2]|]; [|discriminate].
  intros [= <- <- _]. split; [reflexivity|eauto].
Qed.

Lemma first_positionals_settled st unread w st1 n w1 :
  forallb (fun a => negb (is_help a)) (positionals st) = true ->
  match until_option unread with
  | [] => ret (st, O)
  | _ :: _ => consume_positionals unread st
  end w = Ok (st1, n, w1) ->
  forallb (fun a => negb (is_help a)) (positionals st1) = true.
Proof.
  intros Hpos. destruct (until_option unread).
  - intros [= <- _ _]. exact Hpos.
  - intros H. apply consume_positionals_positionals in H as [k ->].
    apply forallb_skipn. exact Hpos.
Qed.

Lemma option_after_positionals unread it following :
  forallb calm unread = true ->
  skipn (length (until_option unread)) unread = it :: following ->
  calm it = true /\ forallb calm following = true.
Proof.
  intros Hcalm Es.
  pose proof (forallb_skipn calm (length (until_option unread)) unread Hcalm)
    as Hs.
  rewrite Es in Hs. cbn [forallb] in Hs. apply andb_prop in Hs. exact Hs.
Qed.

Lemma parse_turn_settled st unread w st' unread' w' :
  settled st unread ->
  parse_turn st unread w = Ok (st', unread', w') -> settled st' unread'.
Proof.
  intros [Hcalm Hpos]. unfold parse_turn, bindM.
  match goal with
  | |- context [match ?m w with Ok _ => _ | Raise _ => _ end] =>
      destruct (m w) as [[[st1 n] w1]|] eqn:E1; [|discriminate]
  end.
  pose proof (first_positionals_settled st unread w st1 n w1 Hpos E1) as Hfirst.
  destruct n as [|n].
  - destruct (skipn (length (until_option unread)) unread) as [|it following] eqn:Es.
    + intros [= <- <- _]. split; [reflexivity|exact Hfirst].
    + intros H. apply consume_optional_suffix in H as [Hp [k ->]].
      split; [|rewrite Hp; exact Hfirst].
      apply forallb_skipn.
      apply (option_after_positionals unread it following Hcalm Es).
  - intros H.
    assert (Hst : st' = st1) by (unfold ret in H; congruence).
    assert (Hu : unread' = skipn (S n) unread) by (unfold ret in H; congruence).
    subst. split; [apply forallb_skipn; exact Hcalm|exact Hfirst].
Qed.

Lemma no_exit_0_parse_turn st unread :
  settled st unread -> no_exit_0 (parse_turn st unread).
Proof.
  intros [Hcalm Hpos]. unfold parse_turn.
  apply no_exit_0_bind.
  - destruct (until_option unread); [apply no_exit_0_ret|].
    apply no_exit_0_consume_positionals. exact Hpos.
  - intros [st1 n] w w' E. destruct n as [|n]; [|apply no_exit_0_ret].
    destruct (skipn (length (until_option unread)) unread) as [|it following] eqn:Es;
      [apply no_exit_0_ret|].
    apply no_exit_0_consume_optional.
    apply (option_after_positionals unread it following Hcalm Es).
Qed.
End NoHelp.

Section HelpRequests.
Import Argparse.
Local Arguments N.eqb _ _ : simpl nomatch.

Lemma contains_split1 c sep s a b :
  Str.split1 sep s = Some (a, b) ->
  Str.contains c s = false ->
  Str.contains c a = false /\ Str.contains c b = false.
Proof.
  unfold Str.contains. revert a b.
  induction s as [|x s IH]; intros a b; cbn [Str.split1 existsb];
    [discriminate|].
  intros H Hc. apply orb_false_elim in Hc as [Hx Hs].
  destruct (x =? sep).
  - injection H as <- <-. auto.
  - destruct (Str.split1 sep s) as [[a' b']|]; [|discriminate].
    injection H as <- <-. destruct (IH a' b' eq_refl Hs) as [Ha Hb].
    cbn [existsb]. rewrite Hx, Ha. auto.
Qed.

Lemma option_tuples_calm rest tu :
  Str.contains (chr "h") rest = false ->
  _get_option_tuples (chr "-" :: rest) = [tu] ->
  calm_tuple (Some tu) = true.
Proof.
  intros Hh Htu. destruct rest as [|c1 r]; [discriminate|].
  unfold Str.contains in Hh. cbn [existsb] in Hh.
  apply orb_false_elim in Hh as [Hc1 Hr]. fold (Str.contains (chr "h") r) in Hr.
  assert (Hin : In tu (_get_option_tuples (chr "-" :: c1 :: r)))
    by (rewrite Htu; left; reflexivity).
  unfold _get_option_tuples in Htu, Hin.
  destruct (c1 =? chr "-") eqn:Edash.
  - apply N.eqb_eq in Edash. subst c1.
    match type of Hin with
    | In _ (let '(_, _) := ?m in _) =>
        assert (Hsplit : exists q explicit_arg,
                  m = (chr "-" :: chr "-" :: q, explicit_arg) /\
                  Str.contains (chr "h") q = false /\
                  match explicit_arg with
                  | Some e => Str.contains (chr "h") e = false
                  | None => True
                  end)
    end.
    { cbn [Str.split1]. change (chr "-" =? chr "=") with false. cbv iota.
      destruct (Str.split1 (chr "=") r) as [[b a]|] eqn:Es.
      - destruct (contains_split1 _ _ _ _ _ Es Hr) as [Hb Ha].
        exists b, (Some a). auto.
      - exists r, None. auto. }
    destruct Hsplit as (q & explicit_arg & Hs & Hq & He).
    rewrite Hs in Htu, Hin. clear Hs.
    destruct q as [|x q'].
    + vm_compute in Htu. discriminate.
    + unfold Str.contains in Hq. cbn [existsb] in Hq.
      apply orb_false_elim in Hq as [Hx _].
      apply in_flat_map in Hin as (e & He1 & He2).
      cbn in He1. change (chr "-") with 45 in He2.
      change (chr "h") with 104 in Hx.
      repeat destruct He1 as [He1|He1]; try contradiction; subst e;
        cbn in He2; rewrite ?Hx in He2; cbn in He2;
        repeat match type of He2 with
               | context [if ?b then _ else _] => destruct b
               end;
        cbn in He2; try contradiction;
        destruct He2 as [<-|[]]; cbn;
        destruct explicit_arg; try rewrite He; reflexivity.
  - apply in_flat_map in Hin as (e & He1 & He2).
    cbn in He1. change (chr "-") with 45 in *. change (chr "h") with 104 in *.
    assert (Hc1' : (45 =? c1) = false) by (rewrite N.eqb_sym; exact Edash).
    repeat destruct He1 as [He1|He1]; try contradiction; subst e;
      cbn in He2; rewrite ?Hc1, ?Hc1' in He2; cbn in He2;
      repeat match type of He2 with
             | context [if ?b then _ else _] => destruct b
             end;
      cbn in He2; try contradiction;
      destruct He2 as [<-|[]]; cbn; change (chr "h") with 104;
      try rewrite Hr; reflexivity.
Qed.

Lemma help_option_holds_h x :
  x = str "-h" \/ x = str "--help" -> Str.contains (chr "h") x = true.
Proof. intros [-> | ->]; reflexivity. Qed.

Lemma parse_optional_calm t w x w' :
  no_help_request t = true ->
  _parse_optional t w = Ok (x, w') -> calm_tuple x = true.
Proof.
  intros Hno. unfold _parse_optional.
  destruct t as [|c0 rest]; [intros [= <- _]; reflexivity|].
  destruct (c0 =? chr "-") eqn:E0; cbn [negb];
    [|intros [= <- _]; reflexivity].
  apply N.eqb_eq in E0. subst c0.
  assert (Hh : Str.contains (chr "h") (chr "-" :: rest) = false).
  { unfold no_help_request in Hno. apply negb_true_iff in Hno.
    cbn [Str.startswith str map list_ascii_of_string] in Hno.
    fold (chr "-") in Hno. rewrite N.eqb_refl, startswith_nil in Hno.
    exact Hno. }
  destruct (get_option (chr "-" :: rest)) as [action|] eqn:Eg.
  { intros [= <- _]. cbn [calm_tuple]. rewrite andb_true_r.
    destruct action; try reflexivity.
    apply get_option_help, help_option_holds_h in Eg. congruence. }
  destruct rest as [|c1 r]; [intros [= <- _]; reflexivity|].
  destruct (Str.split1 (chr "=") (chr "-" :: c1 :: r)) as [[o e]|] eqn:Es.
  - destruct (contains_split1 _ _ _ _ _ Es Hh) as [Ho He].
    destruct (get_option o) as [action|] eqn:Eo.
    + intros [= <- _]. cbn [calm_tuple]. rewrite He. cbn [negb].
      rewrite andb_true_r. destruct action; try reflexivity.
      apply get_option_help, help_option_holds_h in Eo. congruence.
    + assert (Hr : Str.contains (chr "h") (c1 :: r) = false).
      { unfold Str.contains in *. cbn [existsb] in Hh.
        apply orb_false_elim in Hh. tauto. }
      pose proof (option_tuples_calm (c1 :: r)) as Hcalm.
      destruct (_get_option_tuples (chr "-" :: c1 :: r)) as [|tu [|tu' l]].
      * destruct (_negative_number_matcher _); [intros [= <- _]; reflexivity|].
        destruct (Str.contains (chr " ") _); intros [= <- _]; reflexivity.
      * intros [= <- _]. apply Hcalm; [exact Hr|reflexivity].
      * rewrite error_eq. discriminate.
  - assert (Hr : Str.contains (chr "h") (c1 :: r) = false).
    { unfold Str.contains in *. cbn [existsb] in Hh.
      apply orb_false_elim in Hh. tauto. }
    pose proof (option_tuples_calm (c1 :: r)) as Hcalm.
    destruct (_get_option_tuples (chr "-" :: c1 :: r)) as [|tu [|tu' l]].
    + destruct (_negative_number_matcher _); [intros [= <- _]; reflexivity|].
      destruct (Str.contains (chr " ") _); intros [= <- _]; reflexivity.
    + intros [= <- _]. apply Hcalm; [exact Hr|reflexivity].
    + rewrite error_eq. discriminate.
Qed.

Lemma classify_calm argv w items w' :
  forallb no_help_request argv = true ->
  classify argv w = Ok (items, w') -> forallb calm items = true.
Proof.
  revert w items w'. induction argv as [|t argv IH]; intros w items w' Hno.
  - intros [= <- _]. reflexivity.
  - cbn [forallb] in Hno. apply andb_prop in Hno as [Ht Hno].
    cbn [classify]. destruct (str_eqb t (str "--")).
    + intros [= <- _]. cbn [forallb]. unfold calm at 1. cbn.
      clear. induction argv as [|a argv IH]; [reflexivity|exact IH].
    + unfold bindM.
      destruct (_parse_optional t w) as [[x w1]|] eqn:Ex; [|discriminate].
      destruct (classify argv w1) as [[items' w2]|] eqn:Ec; [|discriminate].
      intros [= <- _]. cbn [forallb]. unfold calm at 1.
      cbn [option_tuple_of].
      rewrite (parse_optional_calm t w x w1 Ht Ex).
      apply (IH w1 items' w2 Hno Ec).
Qed.

Lemma no_exit_0_classify argv : no_exit_0 (classify argv).
Proof.
  induction argv as [|t argv IH]; cbn [classify]; [apply no_exit_0_ret|].
  destruct (str_eqb t (str "--")); [apply no_exit_0_ret|].
  apply no_exit_0_bind.
  - destruct (parse_optional_uniform t) as [[x ->]|[message ->]];
      [apply no_exit_0_ret|apply no_exit_0_error].
  - intros x _ _ _. apply no_exit_0_bind; [exact IH|].
    intros; apply no_exit_0_ret.
Qed.

Lemma no_exit_0_parse_args argv :
  forallb no_help_request argv = true -> no_exit_0 (parse_args argv).
Proof.
  intros Hno.
  assert (Hinner : no_exit_0 (_parse_known_args argv defaults)).
  { unfold _parse_known_args.
    apply no_exit_0_bind; [apply no_exit_0_classify|].
    intros items w w1 Ec.
    assert (Hcalm : forallb calm items = true)
      by (eapply classify_calm; eauto).
    pose proof (fun w2 => parse_loop_world settled
                  {| namespace := defaults;
                     positionals := _get_positional_actions;
                     extras := [] |} w2 items
                  ltac:(intros; eapply parse_turn_settled; eauto)
                  (conj Hcalm eq_refl)) as Hloop.
    apply no_exit_0_bind.
    - intros w2 w3. specialize (Hloop w2).
      destruct (iterate _ _ _ _) as [[[st w4] unread]|r]; [discriminate|].
      destruct Hloop as (st1 & s1 & Hsettled & _ & Hturn).
      intros [= ->]. eapply no_exit_0_parse_turn; eauto.
    - intros [st unread] w2 w3 E. specialize (Hloop w2).
      destruct (iterate _ _ _ _) as [[[st' w4] unread']|r]; [|discriminate].
      injection E as -> -> _. destruct Hloop as (_ & [_ Hpos] & _).
      apply no_exit_0_bind; [apply no_exit_0_consume_positionals; exact Hpos|].
      intros [st'' stop] _ _ _. apply no_exit_0_ret. }
  assert (Hknown : no_exit_0 (parse_known_args argv)).
  { intros w w'. unfold parse_known_args.
    pose proof (Hinner w) as H.
    destruct (_parse_known_args argv defaults w) as [[a w1]|[[[]|code] w1]];
      try discriminate; try (rewrite error_eq; discriminate).
    intros [= -> ->]. eapply H. reflexivity. }
  unfold parse_args. apply no_exit_0_bind; [exact Hknown|].
  intros [ns extra] _ _ _. destruct extra;
    [apply no_exit_0_ret|apply no_exit_0_error].
Qed.
End HelpRequests.

(** X9: the help message is shown only when asked for: if no string of the
    command line that starts with a dash holds the letter h, the run does
    not print the help message; it ends with a printed text, with an
    exception of the substitution step, or with a usage error. *)
Theorem help_is_shown_only_when_asked rt argv :
  forallb no_help_request argv = true ->
  ~ In Help (Hello.out (Hello.run rt argv)).
Proof.
  intros Hno.
  destruct (Argparse.parse_args argv Hello.startup) as [[args w]|r] eqn:Hparse.
  - rewrite (run_respond rt argv args w Hparse). unfold respond.
    destruct (Argparse.summary args); [intros [H|[]]; discriminate|].
    destruct (Argparse.version args); [intros [H|[]]; discriminate|].
    destruct (Hello.format_greeting rt _ _); [intros [H|[]]; discriminate|].
    intros [].
  - pose proof (parse_args_cases argv Hello.startup) as Hr.
    rewrite Hparse in Hr. destruct Hr as [->|[message ->]].
    + exfalso. eapply no_exit_0_parse_args; eauto.
    + unfold Hello.run, Hello.main, bindM. rewrite Hparse. intros [].
Qed.

Lemma help_is_shown_only_when_asked_witness :
  ~ In Help (Hello.out (Hello.run no_answers
                          [str "world"; str "-u"; str "--bogus"])).
Proof.
  apply help_is_shown_only_when_asked. reflexivity.
Defined.

(** * The exception of a refused format string *)

Section Refusals.
Import Format.
Variable rt : Runtime.















End Refusals.



(** * The types of the parsed values *)

Section ParsedValues.
Import Argparse.

(** [args.name] is a string, and [args.format] is a string or the empty
    list. *)
Definition well_typed (ns : Namespace) : Prop :=
  (exists n, name ns = VStr n) /\
  ((exists f, format ns = VStr f) \/ format ns = VList []).

(** The ['--'] among the items: the item of a dash holds the string
    ['--'], and there is one at most. *)
Definition is_dash (it : item) : bool :=
  match pattern it with pDash => true | _ => false end.

Definition dash_holds_dashdash (it : item) : bool :=
  negb (is_dash it) || str_eqb (arg_string it) (str "--").

Definition one_dash (l : list item) : Prop :=
  forallb dash_holds_dashdash l = true /\
  (length (filter is_dash l) <= 1)%nat.

Lemma one_dash_skipn n l : one_dash l -> one_dash (skipn n l).
Proof.
  revert l. induction n as [|n IH]; intros l H; [exact H|].
  destruct l as [|it l]; [exact H|]. cbn [skipn]. apply IH.
  destruct H as [Hf Hl]. cbn [forallb filter] in *.
  apply andb_prop in Hf as [_ Hf]. split; [exact Hf|].
  destruct (is_dash it); cbn [length] in Hl; lia.
Qed.

(** The strings the positional [name] takes are one string at most, once
    the ['--'] is removed. *)
Ltac name_strings Hf Hl :=
  unfold dash_holds_dashdash, is_dash in Hf;
  cbn [forallb filter is_dash pattern arg_string negb orb andb length]
    in Hf, Hl;
  try lia;
  cbn; intros [= <-]; cbn [firstn map arg_string remove_dashdash];
  repeat match goal with
         | |- context [str_eqb ?a (str "--")] =>
             destruct (str_eqb a (str "--")) eqn:?E
         end;
  cbn [length]; try lia; try discriminate Hf.

Lemma name_takes_one_string l n :
  one_dash l ->
  re_match (_get_nargs_pattern name_action) (arg_strings_pattern l) = Some n ->
  (length (remove_dashdash (map arg_string (firstn n l))) <= 1)%nat.
Proof.
  intros [Hf Hl].
  destruct l as [|[px ax tx] l]; [cbn; intros [= <-]; cbn; lia|].
  destruct l as [|[py ay ty] l]; [destruct px; name_strings Hf Hl|].
  destruct l as [|[pz az tz] l]; [destruct px, py; name_strings Hf Hl|].
  destruct px, py, pz; name_strings Hf Hl.
Qed.

(** An option stands for an action that has option strings: never for the
    positional. *)
Definition has_option_strings (a : Action) : bool :=
  match a with name_action => false | _ => true end.

Definition from_option (x : option option_tuple) : bool :=
  match x with
  | Some (Some action, _, _) => has_option_strings action
  | _ => true
  end.

(** The strings an option hands to its action: one for the format. *)
Definition well_handed (tuple : Action * list pystr) : bool :=
  match tuple with
  | (name_action, _) => false
  | (format_action, [_]) => true
  | (format_action, _) => false
  | _ => true
  end.

Lemma get_option_has_option_strings s a :
  get_option s = Some a -> has_option_strings a = true.
Proof.
  intros H. apply get_option_some in H. cbn in H.
  repeat destruct H as [H|H]; try contradiction; injection H as _ <-;
    reflexivity.
Qed.

Lemma parse_optional_from_option t w x w' :
  _parse_optional t w = Ok (x, w') -> from_option x = true.
Proof.
  unfold _parse_optional.
  destruct t as [|c0 rest]; [intros [= <- _]; reflexivity|].
  destruct (negb (c0 =? chr "-")); [intros [= <- _]; reflexivity|].
  destruct (get_option (c0 :: rest)) as [action|] eqn:Eg.
  { intros [= <- _]. cbn. eapply get_option_has_option_strings. exact Eg. }
  destruct rest as [|c1 r]; [intros [= <- _]; reflexivity|].
  assert (Htuples : forall tu,
            In tu (_get_option_tuples (c0 :: c1 :: r)) ->
            from_option (Some tu) = true).
  { intros tu Hin. unfold _get_option_tuples in Hin.
    destruct (c1 =? chr "-").
    - destruct (match Str.split1 _ _ with Some _ => _ | None => _ end)
        as [option_prefix explicit_arg].
      apply in_flat_map in Hin as (e & He & Hin). cbn in He.
      repeat destruct He as [He|He]; try contradiction; subst e;
        cbn [fst snd] in Hin;
        destruct (Str.startswith _ _);
        first [destruct Hin as [<-|[]]; reflexivity|destruct Hin].
    - apply in_flat_map in Hin as (e & He & Hin). cbn in He.
      repeat destruct He as [He|He]; try contradiction; subst e;
        cbn [fst snd] in Hin;
        repeat match type of Hin with
               | context [if ?b then _ else _] => destruct b
               end;
        first [destruct Hin as [<-|[]]; reflexivity|destruct Hin]. }
  assert (Hlast : forall x w w',
            match _get_option_tuples (c0 :: c1 :: r) with
            | [] =>
                if _negative_number_matcher (c0 :: c1 :: r) then ret None
                else if Str.contains (chr " ") (c0 :: c1 :: r) then ret None
                else ret (Some (None, c0 :: c1 :: r, None))
            | [t] => ret (Some t)
            | option_tuples =>
                error (ambiguous_option (c0 :: c1 :: r)
                         (map (fun t => snd (fst t)) option_tuples))
            end w = Ok (x, w') -> from_option x = true).
  { intros y w0 w1.
    destruct (_get_option_tuples (c0 :: c1 :: r)) as [|tu [|tu' l]].
    - destruct (_negative_number_matcher _); [intros [= <- _]; reflexivity|].
      destruct (Str.contains _ _); intros [= <- _]; reflexivity.
    - intros [= <- _]. apply Htuples. left. reflexivity.
    - rewrite error_eq. discriminate. }
  destruct (Str.split1 (chr "=") (c0 :: c1 :: r)) as [[o e]|].
  - destruct (get_option o) as [action|] eqn:Eo.
    + intros [= <- _]. cbn. eapply get_option_has_option_strings. exact Eo.
    + apply Hlast.
  - apply Hlast.
Qed.

Lemma classify_items argv w items w' :
  classify argv w = Ok (items, w') ->
  forallb (fun it => from_option (option_tuple_of it)) items = true /\
  one_dash items.
Proof.
  revert w items w'. induction argv as [|t argv IH]; intros w items w'.
  - intros [= <- _]. repeat split. cbn. lia.
  - cbn [classify]. destruct (str_eqb t (str "--")) eqn:Et.
    + intros [= <- _]. unfold one_dash, dash_holds_dashdash.
      cbn [forallb filter is_dash pattern arg_string option_tuple_of
           from_option negb orb andb length].
      rewrite Et. cbn [andb].
      assert (H : forall l : list pystr,
                forallb (fun it => from_option (option_tuple_of it))
                  (map (fun a => {| pattern := pA; arg_string := a;
                                    option_tuple_of := None |}) l) = true /\
                forallb (fun it => negb (is_dash it) ||
                                   str_eqb (arg_string it) (str "--"))
                  (map (fun a => {| pattern := pA; arg_string := a;
                                    option_tuple_of := None |}) l) = true /\
                filter is_dash
                  (map (fun a => {| pattern := pA; arg_string := a;
                                    option_tuple_of := None |}) l) = []).
      { induction l as [|a l IHl]; [repeat split|]. cbn. exact IHl. }
      destruct (H argv) as (H1 & H2 & H3). rewrite H3.
      repeat split; auto.
    + unfold bindM.
      destruct (_parse_optional t w) as [[x w1]|] eqn:Ex; [|discriminate].
      destruct (classify argv w1) as [[items' w2]|] eqn:Ec; [|discriminate].
      intros [= <- _]. destruct (IH w1 items' w2 Ec) as (H1 & H2 & H3).
      unfold one_dash, dash_holds_dashdash.
      cbn [forallb filter option_tuple_of].
      rewrite (parse_optional_from_option t w x w1 Ex), H1.
      assert (Hd : is_dash {| pattern := match x with
                                         | Some _ => pO
                                         | None => pA
                                         end;
                              arg_string := t; option_tuple_of := x |} = false)
        by (destruct x; reflexivity).
      rewrite Hd. cbn [negb orb andb]. repeat split; assumption.
Qed.

Lemma match_following_handed action following tuples n :
  has_option_strings action = true ->
  match_following action following = Ok (tuples, n) ->
  forallb well_handed tuples = true.
Proof.
  intros Ha. unfold match_following, _match_argument.
  destruct (re_match _ _) as [count|] eqn:E; [|discriminate].
  cbn [bind]. intros [= <- _]. cbn [forallb]. rewrite andb_true_r.
  destruct action; try discriminate; try reflexivity.
  destruct following as [|it following]; [discriminate|].
  cbn in E. destruct (pattern_char_eqb (pattern it) pA); [|discriminate].
  injection E as <-. reflexivity.
Qed.

Lemma match_explicit_handed following action option_string explicit_arg tuples n :
  has_option_strings action = true ->
  match_explicit following action option_string explicit_arg = Ok (tuples, n) ->
  forallb well_handed tuples = true.
Proof.
  revert action option_string tuples n.
  induction explicit_arg as [|c e IH]; intros action option_string tuples n Ha;
    cbn [match_explicit]; unfold _match_argument;
    destruct (re_match (_get_nargs_pattern action) [pA]) as [arg_count|] eqn:Em;
    cbn [bind]; try discriminate.
  - destruct (arg_count =? 1)%nat; [|discriminate].
    intros [= <- _]. destruct action; try discriminate; reflexivity.
  - destruct ((arg_count =? 0)%nat && _) eqn:Ezero.
    + destruct (get_option _) as [action'|] eqn:Eo; [|discriminate].
      pose proof (get_option_has_option_strings _ _ Eo) as Ha'.
      destruct (match e with [] => _ | _ => _ end) as [[tuples' m]|] eqn:E;
        [|discriminate].
      cbn [bind]. intros [= <- _]. cbn [forallb].
      apply andb_true_intro. split.
      * apply andb_prop in Ezero as [Ezero _].
        destruct action; try discriminate; try reflexivity.
        cbn in Em. injection Em as <-. discriminate.
      * destruct e; [eapply match_following_handed | eapply IH]; eauto.
    + destruct (arg_count =? 1)%nat; [|discriminate].
      intros [= <- _]. destruct action; try discriminate; reflexivity.
Qed.

Lemma take_action_typed action args ns w ns' w' :
  well_typed ns ->
  (has_option_strings action = false ->
   (length (remove_dashdash args) <= 1)%nat) ->
  (has_option_strings action = true -> well_handed (action, args) = true) ->
  take_action action args ns w = Ok (ns', w') -> well_typed ns'.
Proof.
  intros [Hname Hformat] Hpos Hopt.
  destruct action; cbn [take_action has_option_strings] in *.
  - discriminate.
  - intros [= <- _]. split; [|exact Hformat]. cbn [name]. unfold _get_values.
    specialize (Hpos eq_refl).
    destruct (remove_dashdash args) as [|a [|b l]]; cbn [nargs];
      [eexists; reflexivity|eexists; reflexivity|cbn in Hpos; lia].
  - intros [= <- _]. split; [exact Hname|]. cbn [format]. unfold _get_values.
    specialize (Hopt eq_refl). cbn in Hopt.
    destruct args as [|a [|b l]]; try discriminate.
    cbn [remove_dashdash]. destruct (str_eqb a (str "--")); cbn [nargs]; eauto.
  - intros [= <- _]. exact (conj Hname Hformat).
  - intros [= <- _]. exact (conj Hname Hformat).
  - intros [= <- _]. exact (conj Hname Hformat).
Qed.

Lemma take_actions_typed tuples ns w ns' w' :
  well_typed ns -> forallb well_handed tuples = true ->
  take_actions tuples ns w = Ok (ns', w') -> well_typed ns'.
Proof.
  revert ns w. induction tuples as [|[action args] tuples IH]; intros ns w Hns H.
  - intros [= <- _]. exact Hns.
  - cbn [forallb] in H. apply andb_prop in H as [Ht H].
    cbn [take_actions]. unfold bindM.
    destruct (take_action action args ns w) as [[ns1 w1]|] eqn:E; [|discriminate].
    apply (IH ns1 w1); [|exact H].
    apply (take_action_typed action args ns w ns1 w1 Hns);
      [|intros _; exact Ht|exact E].
    intros Ha. destruct action; discriminate.
Qed.

(** What a turn of the loop keeps. *)
Definition typed (st : state) (unread : list item) : Prop :=
  well_typed (namespace st) /\
  (positionals st = [] \/ positionals st = [name_action]) /\
  forallb (fun it => from_option (option_tuple_of it)) unread = true /\
  one_dash unread.

Lemma consume_positionals_typed unread st w st' n w' :
  typed st unread ->
  consume_positionals unread st w = Ok (st', n, w') ->
  well_typed (namespace st') /\
  (positionals st' = [] \/ positionals st' = [name_action]).
Proof.
  intros (Hns & Hpos & _ & Hdash). unfold consume_positionals.
  destruct st as [ns pos ex]. cbn [positionals namespace extras] in *.
  destruct Hpos as [-> | ->].
  - intros [= <- _ _]. cbn. auto.
  - unfold _match_arguments_partial.
    cbn [length match_slices firstn map re_match_groups].
    destruct (re_match (_get_nargs_pattern name_action)
                (arg_strings_pattern unread)) as [count|] eqn:E.
    + cbn [option_map length skipn take_positionals]. unfold bindM.
      destruct (take_action name_action _ ns w) as [[ns1 w1]|] eqn:Et;
        [|discriminate].
      cbn. unfold ret. intros [= <- _ _]. cbn [namespace positionals].
      split; [|auto].
      apply (take_action_typed name_action
               (map arg_string (firstn count unread)) ns w ns1 w1 Hns);
        [|cbn; discriminate|exact Et].
      intros _. apply name_takes_one_string; assumption.
    + intros [= <- _ _]. cbn. auto.
Qed.

Lemma consume_optional_typed it following st w st' unread' w' :
  well_typed (namespace st) ->
  from_option (option_tuple_of it) = true ->
  consume_optional it following st w = Ok (st', unread', w') ->
  well_typed (namespace st').
Proof.
  intros Hns Hit. unfold consume_optional.
  destruct (option_tuple_of it) as [[[[action|] option_string] explicit_arg]|].
  2-3: intros [= <- _ _]; exact Hns.
  cbn [from_option] in Hit. unfold bindM.
  destruct (match explicit_arg with Some e => _ | None => _ end)
    as [[tuples n]|] eqn:E; cbn [lift]; [|discriminate].
  cbn [ret].
  destruct (take_actions tuples (namespace st) w) as [[ns w1]|] eqn:Et;
    [|discriminate].
  intros [= <- _ _]. cbn [namespace].
  eapply take_actions_typed; [exact Hns| |exact Et].
  destruct explicit_arg;
    [eapply match_explicit_handed|eapply match_following_handed]; eauto.
Qed.

Lemma parse_turn_typed st unread w st' unread' w' :
  typed st unread ->
  parse_turn st unread w = Ok (st', unread', w') -> typed st' unread'.
Proof.
  intros Htyped. pose proof Htyped as (Hns & Hpos & Hopt & Hdash).
  unfold parse_turn, bindM.
  assert (Hfirst : forall st1 n w1,
            match until_option unread with
            | [] => ret (st, O)
            | _ :: _ => consume_positionals unread st
            end w = Ok (st1, n, w1) ->
            well_typed (namespace st1) /\
            (positionals st1 = [] \/ positionals st1 = [name_action])).
  { intros st1 n w1. destruct (until_option unread).
    - intros [= <- _ _]. auto.
    - apply consume_positionals_typed. exact Htyped. }
  match goal with
  | |- context [match ?m w with Ok _ => _ | Raise _ => _ end] =>
      destruct (m w) as [[[st1 n] w1]|] eqn:E1; [|discriminate]
  end.
  destruct (Hfirst st1 n w1 eq_refl) as [Hns1 Hpos1].
  destruct n as [|n].
  - destruct (skipn (length (until_option unread)) unread) as [|it following] eqn:Es.
    + intros [= <- <- _]. split; [exact Hns1|]. split; [exact Hpos1|].
      split; [reflexivity|]. split; [reflexivity|cbn; lia].
    + intros H.
      pose proof (forallb_skipn _ (length (until_option unread)) unread Hopt)
        as Hs.
      rewrite Es in Hs. cbn [forallb] in Hs. apply andb_prop in Hs as [Hit Hf].
      pose proof (one_dash_skipn (length (until_option unread)) unread Hdash)
        as Hd.
      rewrite Es in Hd. apply (one_dash_skipn 1) in Hd. cbn [skipn] in Hd.
      pose proof (consume_optional_suffix _ _ _ _ _ _ _ H) as [Hp [k ->]].
      split; [|split; [|split]].
      * eapply consume_optional_typed; [| |exact H]; [exact Hns1|exact Hit].
      * rewrite Hp. exact Hpos1.
      * apply forallb_skipn. exact Hf.
      * apply one_dash_skipn. exact Hd.
  - intros H.
    assert (Hst : st' = st1) by (unfold ret in H; congruence).
    assert (Hu : unread' = skipn (S n) unread) by (unfold ret in H; congruence).
    subst. split; [exact Hns1|]. split; [exact Hpos1|].
    split; [apply forallb_skipn; exact Hopt|apply one_dash_skipn; exact Hdash].
Qed.

Lemma parse_args_typed argv w args w' :
  parse_args argv w = Ok (args, w') -> well_typed args.
Proof.
  unfold parse_args, parse_known_args, bindM.
  destruct (_parse_known_args argv defaults w) as [[[ns extra] w1]|[[[]|] w1]] eqn:E;
    try discriminate; try (rewrite error_eq; discriminate).
  destruct extra; [|rewrite error_eq; discriminate].
  intros [= <- _]. revert E. unfold _parse_known_args, bindM.
  destruct (classify argv w) as [[items w2]|] eqn:Ec; [|discriminate].
  destruct (classify_items argv w items w2 Ec) as [Hopt Hdash].
  pose proof (parse_loop_world typed
                {| namespace := defaults; positionals := _get_positional_actions;
                   extras := [] |} w2 items
                ltac:(intros; eapply parse_turn_typed; eauto)) as Hloop.
  assert (Hinit : typed {| namespace := defaults;
                           positionals := _get_positional_actions;
                           extras := [] |} items).
  { split; [|split; [right; reflexivity|split; assumption]].
    split; [eexists; reflexivity|left; eexists; reflexivity]. }
  specialize (Hloop Hinit).
  destruct (iterate _ _ _ _) as [[[st w3] unread]|]; [|discriminate].
  destruct Hloop as (-> & Htyped & _).
  destruct (consume_positionals unread st w2) as [[[st' stop] w4]|] eqn:Ep;
    [|discriminate].
  intros [= <- _ _].
  apply (consume_positionals_typed unread st w2 st' stop w4 Htyped Ep).
Qed.
End ParsedValues.

(** X11: whatever command line the parser accepts, the name it returns is
    a string, never a list, and the format is a string or the empty
    list. *)
Theorem parsed_name_is_a_string argv w args w' :
  Argparse.parse_args argv w = Ok (args, w') ->
  (exists n, Argparse.name args = Argparse.VStr n) /\
  ((exists f, Argparse.format args = Argparse.VStr f) \/
   Argparse.format args = Argparse.VList []).
Proof. apply parse_args_typed. Qed.

Lemma parsed_name_is_a_string_witness :
  (exists n, Argparse.VStr (str "--") = Argparse.VStr n) /\
  ((exists f, Argparse.VList [] = Argparse.VStr f) \/
   Argparse.VList (@nil pystr) = Argparse.VList []).
Proof.
  apply (parsed_name_is_a_string [str "--format=--"; str "--"; str "--"]
           Hello.startup
           {| Argparse.name := Argparse.VStr (str "--");
              Argparse.format := Argparse.VList [];
              Argparse.uppercase := false; Argparse.summary := false;
              Argparse.version := false |} Hello.startup).
  vm_compute. reflexivity.
Defined.



(** * Usage errors on an otherwise plain command line *)

Section UsageErrors.
Import Argparse.

(** The state of the parser before it has read anything. *)
Definition initial : state :=
  {| namespace := defaults; positionals := _get_positional_actions;
     extras := [] |}.

(** The parser past the tokens of a plain command line, with other strings
    still to read. *)
Lemma parse_known_args_after_tokens before tail w items :
  forallb well_spelled before = true ->
  classify tail w = Ok (items, w) ->
  (names before <> [] ->
   count_leading pDash (arg_strings_pattern items) = O) ->
  _parse_known_args (flat_map spell before ++ tail) defaults w =
  parse_items items (fold_left take before initial) w.
Proof.
  intros H Hc Hdash. rewrite parse_known_args_items. unfold bindM.
  rewrite classify_spelled_then by exact H. rewrite Hc.
  fold (items_of_all before). fold initial.
  apply parse_items_tokens; [exact H|right; reflexivity|exact Hdash].
Qed.

Lemma parse_args_argument_error argv w argument_name message :
  _parse_known_args argv defaults w =
    Raise (Exception (ArgumentError argument_name message), w) ->
  parse_args argv w = error (argument_error argument_name message) w.
Proof.
  intros H. unfold parse_args, parse_known_args, bindM. rewrite H.
  rewrite !error_eq. reflexivity.
Qed.

Lemma fold_take_positionals tokens st :
  (positionals st = [] \/ positionals st = [name_action]) ->
  positionals (fold_left take tokens st) = [] \/
  positionals (fold_left take tokens st) = [name_action].
Proof.
  revert st. induction tokens as [|t tokens IH]; intros st H; [exact H|].
  cbn [fold_left]. apply IH. apply take_positionals_state. exact H.
Qed.

(** An option whose action raises is the end of the parser, whatever
    follows it. *)
Lemma parse_items_option_raises it items st w e :
  is_option it = true ->
  consume_optional it items st w = Raise e ->
  parse_items (it :: items) st w = Raise e.
Proof.
  intros Hit H. rewrite parse_items_option by exact Hit. rewrite H.
  reflexivity.
Qed.

Lemma written_option_stands written option_string action :
  written_option written = Some (option_string, action) ->
  In (option_string, action) _option_string_actions /\
  stands_for written option_string = true.
Proof.
  unfold written_option. intros H. apply find_some in H. exact H.
Qed.

(** The item of an option written with a value glued to it. *)
Definition glued_item (written v option_string : pystr) (action : Action)
    : item :=
  {| pattern := pO; arg_string := written ++ chr "=" :: v;
     option_tuple_of := Some (Some action, option_string, Some v) |}.

Lemma classify_glued written v option_string action after w :
  written_option written = Some (option_string, action) ->
  forallb well_spelled after = true ->
  classify ((written ++ chr "=" :: v) :: flat_map spell after) w =
  Ok (glued_item written v option_string action :: items_of_all after, w).
Proof.
  intros Hw Hafter.
  destruct (parse_optional_written _ _ _ Hw) as (_ & _ & _ & Hv).
  destruct (Hv v) as [Hd Hp].
  rewrite (classify_cons _ _ _ _ Hd Hp), classify_spelled by exact Hafter.
  reflexivity.
Qed.

(** The strings an option string begins with, one after the other. *)
Ltac beginnings w H :=
  repeat (destruct w as [|?c w];
          [|cbn [Str.startswith] in H;
            first [discriminate H
                  |apply andb_prop in H as [?Hc H];
                   apply N.eqb_eq in Hc; subst]]).

Lemma match_explicit_ignored written option_string action v items :
  written_option written = Some (option_string, action) ->
  nargs action = nargs_0 ->
  Str.startswith written (str "--") = true ->
  match_explicit items action option_string v =
  Raise (ArgumentError (_get_action_name action) (ignored_explicit_argument v)).
Proof.
  intros Hw Hnargs Hlong.
  destruct (written_option_stands _ _ _ Hw) as [Hin Hstands].
  unfold stands_for in Hstands. cbn in Hin.
  repeat destruct Hin as [Hin|Hin]; try contradiction;
    injection Hin as <- <-; try discriminate Hnargs;
    try (destruct v; reflexivity);
    exfalso; apply orb_prop in Hstands as [Hs|Hs];
    try (apply str_eqb_eq in Hs; subst written; discriminate Hlong);
    apply andb_prop in Hs as [Hlen Hs];
    beginnings written Hs; discriminate.
Qed.

Lemma run_argument_error rt argv argument_name message :
  _parse_known_args argv defaults Hello.startup =
    Raise (Exception (ArgumentError argument_name message), Hello.startup) ->
  Hello.run rt argv = rejected (argument_error argument_name message).
Proof.
  intros H. apply run_rejected. apply parse_args_argument_error. exact H.
Qed.
End UsageErrors.

(** X13: a switch takes no value. On an otherwise plain command line, the
    first long option without argument (a switch or the help option,
    written in full or abbreviated) that has a value glued to it with an
    equals sign ends the run with the usage error that names the option
    and the value it ignores, whatever the rest of the command line is. *)
Theorem switch_takes_no_value rt before written option_string action v after :
  forallb well_spelled before = true ->
  written_option written = Some (option_string, action) ->
  Argparse.nargs action = Argparse.nargs_0 ->
  Str.startswith written (str "--") = true ->
  forallb well_spelled after = true ->
  Hello.run rt
    (flat_map spell before ++ (written ++ chr "=" :: v) :: flat_map spell after) =
  rejected (argument_error (Argparse._get_action_name action)
              (ignored_explicit_argument v)).
Proof.
  intros Hbefore Hw Hnargs Hlong Hafter. apply run_argument_error.
  rewrite (parse_known_args_after_tokens before _ _ _ Hbefore
             (classify_glued written v option_string action after _ Hw Hafter))
    by reflexivity.
  apply parse_items_option_raises; [reflexivity|].
  unfold Argparse.consume_optional, glued_item.
  cbn [Argparse.option_tuple_of].
  rewrite (match_explicit_ignored written option_string action v _ Hw Hnargs Hlong).
  reflexivity.
Qed.

Lemma switch_takes_no_value_witness :
  Hello.run no_answers [str "Ada"; str "--upper=yes"; str "--summary"] =
  rejected (argument_error (str "--uppercase/-u")
              (ignored_explicit_argument (str "yes"))).
Proof.
  exact (switch_takes_no_value no_answers [Positional (str "Ada")]
           (str "--upper") (str "--uppercase") Argparse.uppercase_action
           (str "yes") [Switch (str "--summary")]
           eq_refl eq_refl eq_refl eq_refl eq_refl).
Defined.

Section MissingValue.
Import Argparse.

(** A command line that goes on with an option, or ends. *)
Definition starts_with_option (tokens : list token) : bool :=
  match tokens with
  | Positional _ :: _ => false
  | _ => true
  end.

Lemma match_following_format_fails after :
  starts_with_option after = true ->
  match_following format_action (items_of_all after) =
  Raise (ArgumentError (str "--format") expected_one_argument).
Proof. destruct after as [|[] after]; try discriminate; reflexivity. Qed.

Lemma classify_written written option_string action after w :
  written_option written = Some (option_string, action) ->
  forallb well_spelled after = true ->
  classify (written :: flat_map spell after) w =
  Ok (option_item written None written :: items_of_all after, w).
Proof.
  intros Hw Hafter.
  destruct (parse_optional_written _ _ _ Hw) as (_ & Hd & Hp & _).
  rewrite (classify_cons _ _ _ _ Hd Hp), classify_spelled by exact Hafter.
  unfold option_item. rewrite Hw. reflexivity.
Qed.
End MissingValue.

(** X14: the format needs a value. On an otherwise plain command line, a
    [--format] (in full or abbreviated) that is the last string, or that is
    followed by another option, ends the run with the usage error that
    [--format] expects one argument. *)
Theorem format_needs_a_value rt before written after :
  forallb well_spelled before = true ->
  writes_format written = true ->
  forallb well_spelled after = true ->
  starts_with_option after = true ->
  Hello.run rt (flat_map spell before ++ written :: flat_map spell after) =
  rejected (argument_error (str "--format") expected_one_argument).
Proof.
  intros Hbefore Hw Hafter Hnext. apply run_argument_error.
  unfold writes_format in Hw.
  destruct (written_option written) as [[option_string action]|] eqn:Ew;
    [|discriminate].
  rewrite (parse_known_args_after_tokens before _ _ _ Hbefore
             (classify_written written option_string action after _ Ew Hafter))
    by reflexivity.
  apply parse_items_option_raises; [reflexivity|].
  unfold Argparse.consume_optional, option_item.
  cbn [Argparse.option_tuple_of]. rewrite Ew.
  destruct action; try discriminate.
  rewrite (match_following_format_fails after Hnext). reflexivity.
Qed.

Lemma format_needs_a_value_witness :
  Hello.run no_answers [str "Ada"; str "--form"; str "--uppercase"] =
  rejected (argument_error (str "--format") expected_one_argument) /\
  Hello.run no_answers [str "-u"; str "--format"] =
  rejected (argument_error (str "--format") expected_one_argument).
Proof.
  split.
  - exact (format_needs_a_value no_answers [Positional (str "Ada")]
             (str "--form") [Switch (str "--uppercase")]
             eq_refl eq_refl eq_refl eq_refl).
  - exact (format_needs_a_value no_answers [Switch (str "-u")]
             (str "--format") [] eq_refl eq_refl eq_refl eq_refl).
Defined.

Section UnknownOption.
Import Argparse.

Lemma classify_unknown s after w :
  unknown_flag s = true ->
  forallb well_spelled after = true ->
  exists option_string explicit_arg,
    classify (s :: flat_map spell after) w =
    Ok ({| pattern := pO; arg_string := s;
           option_tuple_of := Some (None, option_string, explicit_arg) |}
        :: items_of_all after, w).
Proof.
  intros Hs Hafter. unfold unknown_flag, classified in Hs.
  assert (Hd : str_eqb s (str "--") = false).
  { destruct (str_eqb s (str "--")) eqn:E; [|reflexivity].
    apply str_eqb_eq in E. subst s. vm_compute in Hs. discriminate. }
  destruct (parse_optional_uniform s) as [[x Hx]|[message Hx]];
    rewrite Hx in Hs; [|rewrite error_eq in Hs; discriminate].
  cbn [ret] in Hs.
  destruct x as [[[[action|] option_string] explicit_arg]|]; try discriminate.
  exists option_string, explicit_arg.
  rewrite (classify_cons _ _ _ _ Hd Hx), classify_spelled by exact Hafter.
  reflexivity.
Qed.

Lemma extras_after_tokens tokens ns pos ex :
  (pos = [] \/ pos = [name_action]) ->
  snd (finish (fold_left take tokens
                 {| namespace := ns; positionals := pos; extras := ex |})) =
  ex ++ match pos with
        | [] => names tokens
        | _ => tl (names tokens)
        end.
Proof.
  intros [-> | ->].
  - rewrite fold_take_taken. reflexivity.
  - rewrite fold_take_free. destruct (names tokens); cbn;
      rewrite ?app_nil_r; reflexivity.
Qed.
End UnknownOption.

(** X15: an option the parser does not know is reported, not acted upon.
    On an otherwise plain command line it ends the run with the usage
    error that lists, in the order of the command line, the option and
    every name but the first. *)
Theorem unknown_option_is_reported rt before s after :
  forallb well_spelled before = true ->
  unknown_flag s = true ->
  forallb well_spelled after = true ->
  Hello.run rt (flat_map spell before ++ s :: flat_map spell after) =
  rejected (unrecognized_arguments
              (tl (names before) ++
               s :: match names before with
                    | [] => tl (names after)
                    | _ => names after
                    end)).
Proof.
  intros Hbefore Hs Hafter. apply run_rejected.
  destruct (classify_unknown s after Hello.startup Hs Hafter)
    as (option_string & explicit_arg & Hc).
  unfold Argparse.parse_args, Argparse.parse_known_args, bindM.
  rewrite (parse_known_args_after_tokens before _ _ _ Hbefore Hc)
    by reflexivity.
  rewrite parse_items_option by reflexivity.
  unfold Argparse.consume_optional. cbn [Argparse.option_tuple_of ret].
  cbn [Argparse.arg_string Argparse.namespace Argparse.positionals
       Argparse.extras].
  rewrite <- (app_nil_r (items_of_all after)).
  unfold initial, Argparse._get_positional_actions.
  rewrite fold_take_free.
  destruct (names before) as [|n extra];
    cbn [Argparse.namespace Argparse.positionals Argparse.extras tl app].
  - rewrite parse_items_tokens;
      [|exact Hafter|right; reflexivity|reflexivity].
    rewrite parse_items_nil by (apply fold_take_positionals; right; reflexivity).
    rewrite (surjective_pairing (finish _)).
    rewrite extras_after_tokens by (right; reflexivity).
    cbn [app]. reflexivity.
  - rewrite parse_items_tokens;
      [|exact Hafter|left; reflexivity|reflexivity].
    rewrite parse_items_nil by (apply fold_take_positionals; left; reflexivity).
    rewrite (surjective_pairing (finish _)).
    rewrite extras_after_tokens by (left; reflexivity).
    rewrite <- app_assoc. cbn [app].
    destruct (extra ++ s :: names after) eqn:E; [|reflexivity].
    destruct extra; discriminate.
Qed.

Lemma unknown_option_is_reported_witness :
  Hello.run no_answers
    [str "Ada"; str "Grace"; str "--bogus"; str "-u"; str "Edsger"] =
  rejected (unrecognized_arguments
              [str "Grace"; str "--bogus"; str "Edsger"]).
Proof.
  exact (unknown_option_is_reported no_answers
           [Positional (str "Ada"); Positional (str "Grace")] (str "--bogus")
           [Switch (str "-u"); Positional (str "Edsger")]
           eq_refl eq_refl eq_refl).
Defined.
